(** * little-busters: resolution analysis of page-image archives

    A shallow embedding of [little-busters.py].  The script reads the pixel
    sizes of the images of a zip archive, halves the recorded width of double
    spreads, flags the images whose area falls too far below the average and
    writes a new archive without them.

    The Python code is duck-typed over numbers: image sizes start as [int]
    and every [/] is true division, so averages, halved widths and ratios are
    [float].  The embedding keeps the code generic over an interface of the
    arithmetic operations it uses, and gives two implementations: exact
    rationals, and IEEE 754 binary64 as CPython computes. *)

From Stdlib Require Import ZArith QArith Qabs Lia Lqa Ascii String.
From Stdlib Require Qcanon.
From Stdlib Require PrimFloat SpecFloat FloatOps.
From stdpp Require Import gmap strings list sorting.

Set Default Proof Using "Type".
Set Warnings "-register-all".

(** ** Exceptions *)

Inductive exn : Set :=
  | ZeroDivisionError
  | FileNotFoundError
  | IsADirectoryError
  | NotADirectoryError
  | FileExistsError
  | KeyError
  | IndexError
  | OSError.

Inductive result (A : Type) : Type :=
  | Ok (a : A)
  | Raise (e : exn).
Arguments Ok {A} a.
Arguments Raise {A} e.

#[global] Instance result_ret : MRet result := λ A a, Ok a.
#[global] Instance result_bind : MBind result := λ A B k r,
  match r with
  | Ok a => k a
  | Raise e => Raise e
  end.

(** ** The arithmetic the script uses *)

Class Number (N : Type) := {
  of_int : Z → N;
  nadd : N → N → N;
  nsub : N → N → N;
  nmul : N → N → N;
  (** the quotient of a true division whose divisor is known not to be zero *)
  nquot : N → N → N;
  nabs : N → N;
  nlt : N → N → bool;
  is_zero : N → bool
}.

Section Analysis.
Context {N : Type} `{Number N}.

Definition size : Type := N * N.

(** [x / y] with [y] a number computed by the script. *)
Definition truediv (x y : N) : result N :=
  if is_zero y then Raise ZeroDivisionError else Ok (nquot x y).

(** [x / k] with [k] a Python [int] ([len(sizes)], or the literal [2]). *)
Definition truediv_int (x : N) (k : Z) : result N :=
  if (k =? 0)%Z then Raise ZeroDivisionError else Ok (nquot x (of_int k)).

(** [sum(xs)]: a left fold of [+] that starts from the [int] 0. *)
Definition py_sum (xs : list N) : N := fold_left nadd xs (of_int 0).

Definition calculate_average_resolution (sizes : list size) : result size :=
  let count := Z.of_nat (length sizes) in
  horizontal ← truediv_int (py_sum (map fst sizes)) count;
  vertical ← truediv_int (py_sum (map snd sizes)) count;
  Ok (horizontal, vertical).

(** The body of the loop of [detect_double_spreads] up to its [if]: the two
    differences of one entry against [average]. *)
Definition spread_diffs (average sz : size) : result (N * N) :=
  half ← truediv_int sz.1 2;
  h ← truediv half average.1;
  let horizontal_diff := nabs (nsub (of_int 1) h) in
  v ← truediv sz.2 average.2;
  let vertical_diff := nabs (nsub (of_int 1) v) in
  Ok (horizontal_diff, vertical_diff).

(** [for index, size in enumerate(sizes)] over the list that the body
    updates in place: the iterator reads [sizes[index]] from the current
    list and stops when [index] runs past its end.  [steps] bounds the
    number of iterations; the list never changes length, so its length is
    enough. *)
Fixpoint spread_loop (average : size) (treshold : N) (steps index : nat)
    (sizes : list size) : result (list size) :=
  match steps with
  | O => Ok sizes
  | S steps' =>
      match sizes !! index with
      | None => Ok sizes
      | Some sz =>
          d ← spread_diffs average sz;
          if nlt d.1 treshold && nlt d.2 treshold then
            half ← truediv_int sz.1 2;
            spread_loop average treshold steps' (S index)
              (<[index := (half, sz.2)]> sizes)
          else
            spread_loop average treshold steps' (S index) sizes
      end
  end.

(** Returns the list as the in-place updates leave it. *)
Definition detect_double_spreads (sizes : list size) (treshold : N)
    : result (list size) :=
  average ← calculate_average_resolution sizes;
  spread_loop average treshold (length sizes) 0 sizes.

Fixpoint non_pages_loop (average_resolution treshold : N) (index : nat)
    (rest : list size) (indexes : list (nat * N)) : result (list (nat * N)) :=
  match rest with
  | [] => Ok indexes
  | sz :: rest' =>
      let resolution := nmul sz.1 sz.2 in
      size_diff ← truediv resolution average_resolution;
      non_pages_loop average_resolution treshold (S index) rest'
        (if nlt treshold (nsub (of_int 1) size_diff)
         then indexes ++ [(index, size_diff)]
         else indexes)
  end.

Definition detect_non_pages (sizes : list size) (treshold : N)
    : result (list (nat * N)) :=
  average ← calculate_average_resolution sizes;
  let average_resolution := nmul average.1 average.2 in
  non_pages_loop average_resolution treshold 0 sizes [].

(** The analysis steps of [main] for one archive, from the sizes on. *)
Definition analyse (sizes : list size) (threshold : N)
    : result (list size * list (nat * N)) :=
  sizes' ← detect_double_spreads sizes threshold;
  non_pages ← detect_non_pages sizes' threshold;
  Ok (sizes', non_pages).

End Analysis.

Arguments size N : clear implicits.

(** ** Exact rational arithmetic *)

(** The arithmetic in which the formulas of the specification are read: no
    operation rounds.  The script itself does not compute in it: its sizes
    are [int] and its divisions give binary64 [float] (below), so that at
    an input on the boundary of a comparison the two can differ.  A theorem
    stated with this instance is about the formulas in exact arithmetic, and
    says so. *)

Module Exact.

Definition qlt (a b : Q) : bool := negb (Qle_bool b a).

#[global] Instance number : Number Q := {|
  of_int := inject_Z;
  nadd a b := Qred (a + b);
  nsub a b := Qred (a - b);
  nmul a b := Qred (a * b);
  nquot a b := Qred (a / b);
  nabs := Qabs;
  nlt := qlt;
  is_zero a := Qeq_bool a 0
|}.

Definition int_sizes (l : list (Z * Z)) : list (size Q) :=
  map (λ p, (inject_Z p.1, inject_Z p.2)) l.

End Exact.

(** ** IEEE 754 binary64, the arithmetic of CPython's [float] *)

(** Python keeps [int] exact and turns to [float] at the first true
    division.  Here every number is a double from the start, which gives the
    same values as long as the integers that occur (pixel dimensions, their
    sums and products) stay below 2^53, where doubles hold them exactly and
    add and multiply them without rounding; beyond that the sums of the
    script are still exact where those of this instance round.  The runs in
    this instance below are all on integers far below that bound. *)

Module Binary64.

(** [float(z)]: the nearest double, ties to even. *)
Definition of_Z (z : Z) : PrimFloat.float :=
  FloatOps.SF2Prim (SpecFloat.binary_normalize FloatOps.prec FloatOps.emax z 0 false).

#[global] Instance number : Number PrimFloat.float := {|
  of_int := of_Z;
  nadd := PrimFloat.add;
  nsub := PrimFloat.sub;
  nmul := PrimFloat.mul;
  nquot := PrimFloat.div;
  nabs := PrimFloat.abs;
  nlt := PrimFloat.ltb;
  is_zero a := PrimFloat.eqb a PrimFloat.zero
|}.

(** The rational a finite double stands for. *)
Definition to_Q (f : PrimFloat.float) : option Q :=
  match FloatOps.Prim2SF f with
  | SpecFloat.S754_zero _ => Some 0%Q
  | SpecFloat.S754_finite s m e =>
      Some (Qred (inject_Z (if s then Z.neg m else Z.pos m) * Qpower 2 e))
  | _ => None
  end.

Definition int_sizes (l : list (Z * Z)) : list (size PrimFloat.float) :=
  map (λ p, (of_Z p.1, of_Z p.2)) l.

Import PrimFloat.

(** The double that the literal [0.2] denotes, the default of [--threshold]. *)
Definition default_threshold : PrimFloat.float := 0x1.999999999999ap-3%float.


End Binary64.

(** ** Archives and the file system *)

(** What a file holds: raw bytes, or a zip container of named entries.  The
    container format itself is left abstract. *)
Inductive blob : Type :=
  | Raw (bytes : list Byte.byte)
  | Zip (entries : list (string * blob)).

Abbreviation member := (string * blob)%type.
Abbreviation path := (list string).

Inductive node : Type :=
  | File (content : blob)
  | Dir.

(** The state of the world: the files and directories by absolute path, and
    the fault to inject, if any: with [Some k] the next [k] operations on
    the file system succeed and the one after them fails. *)
Record world : Type := World {
  fs : gmap path node;
  fault_at : option nat
}.

Definition io (A : Type) : Type := world → result A * world.

#[global] Instance io_ret : MRet io := λ A a w, (Ok a, w).
#[global] Instance io_bind : MBind io := λ A B k m w,
  match m w with
  | (Ok a, w') => k a w'
  | (Raise e, w') => (Raise e, w')
  end.

Definition raise {A} (e : exn) : io A := λ w, (Raise e, w).
Definition get_fs : io (gmap path node) := λ w, (Ok (fs w), w).
Definition put_fs (m : gmap path node) : io unit :=
  λ w, (Ok (), World m (fault_at w)).

(** Every operation on the file system passes here first. *)
Definition io_step : io unit := λ w,
  match fault_at w with
  | None => (Ok (), w)
  | Some O => (Raise OSError, World (fs w) None)
  | Some (S k) => (Ok (), World (fs w) (Some k))
  end.

(** *** Names and paths *)

Definition slash : Ascii.ascii := "/"%char.

(** [s.split('/')] *)
Fixpoint split_slash (s : string) : list string :=
  match s with
  | EmptyString => [EmptyString]
  | String c s' =>
      if Ascii.eqb c slash then EmptyString :: split_slash s'
      else match split_slash s' with
           | [] => [String c EmptyString]
           | comp :: comps => String c comp :: comps
           end
  end.

(** ['/'.join(comps)] *)
Definition join_slash (comps : list string) : string := String.concat "/" comps.

Definition starts_with_slash (s : string) : bool :=
  match s with
  | String c _ => Ascii.eqb c slash
  | EmptyString => false
  end.

Fixpoint ends_with_slash (s : string) : bool :=
  match s with
  | EmptyString => false
  | String c EmptyString => Ascii.eqb c slash
  | String _ s' => ends_with_slash s'
  end.

Definition invalid_path_part (comp : string) : bool :=
  bool_decide (comp ∈ [""; "."; ".."]%string).

(** Resolution of the components [comps] from the directory [base]: empty
    components and [.] are skipped, [..] goes up and stays at the root. *)
Fixpoint resolve (base : path) (comps : list string) : path :=
  match comps with
  | [] => base
  | comp :: comps' =>
      if bool_decide (comp = ""%string) || bool_decide (comp = "."%string)
      then resolve base comps'
      else if bool_decide (comp = ".."%string)
      then resolve (removelast base) comps'
      else resolve (base ++ [comp]) comps'
  end.

(** The file that [os.path.join(directory, filename)] names, [directory]
    given by the components of its absolute path: an absolute [filename]
    discards the directory. *)
Definition os_path_join (directory : path) (filename : string) : path :=
  if starts_with_slash filename then resolve [] (split_slash filename)
  else resolve directory (split_slash filename).

(** *** zipfile *)

Definition namelist (archive : list member) : list string := map fst archive.

(** [ZipFile.getinfo]: the names index the entries, and a dictionary filled
    in entry order keeps the last entry of each name. *)
Definition getinfo (archive : list member) (name : string) : result member :=
  match List.find (λ m, bool_decide (m.1 = name)) (rev archive) with
  | Some m => Ok m
  | None => Raise KeyError
  end.

(** [os.makedirs] of the directories [comps] below [base]. *)
Fixpoint make_dirs (base : path) (comps : list string) (m : gmap path node)
    : result (gmap path node) :=
  match comps with
  | [] => Ok m
  | comp :: comps' =>
      let d := base ++ [comp] in
      match m !! d with
      | Some (File _) => Raise NotADirectoryError
      | _ => make_dirs d comps' (<[d := Dir]> m)
      end
  end.

(** [archive.extract(filename, path=directory)].  The library builds the
    target from the components of the member's name that are not empty, [.]
    or [..], so that it lies inside [directory]; a name that ends with a
    slash is a directory. *)
Definition extract (archive : list member) (filename : string) (directory : path)
    : io unit :=
  match getinfo archive filename with
  | Raise e => raise e
  | Ok m =>
      _ ← io_step;
      files ← get_fs;
      let comps := List.filter (λ c, negb (invalid_path_part c)) (split_slash m.1) in
      let target := directory ++ comps in
      if ends_with_slash m.1 then
        match files !! target with
        | Some (File _) => raise FileExistsError
        | _ =>
            match make_dirs directory comps files with
            | Ok files' => put_fs files'
            | Raise e => raise e
            end
        end
      else
        match make_dirs directory (removelast comps) files with
        | Raise e => raise e
        | Ok files' =>
            match files' !! target with
            | Some Dir => raise IsADirectoryError
            | _ =>
                if bool_decide (comps = []) then raise IsADirectoryError
                else put_fs (<[target := File m.2]> files')
            end
        end
  end.

(** [new_archive.write(filename)] without [arcname]: the entry is named
    after the path of the file that is read, without its leading slash.
    Returns the entry that the archive gains. *)
Definition zip_write (file : path) : io member :=
  _ ← io_step;
  files ← get_fs;
  match file with
  | [] => raise IndexError
  | _ =>
      match files !! file with
      | None => raise FileNotFoundError
      | Some Dir => mret (join_slash file +:+ "/", Raw [])%string
      | Some (File content) => mret (join_slash file, content)
      end
  end.

(** *** tempfile and shutil *)

(** [NamedTemporaryFile()], at the name [name] that the system picked.  The
    file is there as long as the object is: see [release_temporary_file]. *)
Definition named_temporary_file (name : path) : io unit :=
  _ ← io_step;
  files ← get_fs;
  put_fs (<[name := File (Raw [])]> files).

(** [TemporaryDirectory()], at the name [name] that the system picked. *)
Definition temporary_directory (name : path) : io unit :=
  _ ← io_step;
  files ← get_fs;
  put_fs (<[name := Dir]> files).

(** [temporary_directory.cleanup()]: the directory and all below it go. *)
Definition cleanup (directory : path) : io unit :=
  _ ← io_step;
  files ← get_fs;
  put_fs (filter (λ kv, ¬ directory `prefix_of` kv.1) files).

(** The script never closes the [ZipFile] writer.  When [create_archive]
    returns, the interpreter releases it, and [ZipFile.__del__] writes the
    directory of the entries and the end record to the temporary file.  An
    exception raised there is ignored: the run goes on, and the temporary
    file is left as it was, without a directory, which is no zip archive
    (the data that [write] has put there is not tracked: the file still
    counts as the empty one that [NamedTemporaryFile] made). *)
Definition zip_close (file : path) (entries : list member) : io unit := λ w,
  match io_step w with
  | (Ok _, w') => put_fs (<[file := File (Zip entries)]> (fs w')) w'
  | (Raise _, w') => (Ok (), w')
  end.

(** The interpreter releases a [NamedTemporaryFile]: the file is closed and
    removed.  This, too, happens in a finalizer, where an exception is
    ignored and leaves the file behind. *)
Definition release_temporary_file (name : path) : io unit := λ w,
  match io_step w with
  | (Ok _, w') => put_fs (delete name (fs w')) w'
  | (Raise _, w') => (Ok (), w')
  end.

(** A variable that may hold a [NamedTemporaryFile] is bound anew, or goes
    out of scope: what it held is released. *)
Definition rebind (held : option path) : io unit :=
  match held with
  | Some name => release_temporary_file name
  | None => mret ()
  end.

Definition read_file (file : path) : io blob :=
  _ ← io_step;
  files ← get_fs;
  match files !! file with
  | Some (File content) => mret content
  | Some Dir => raise IsADirectoryError
  | None => raise FileNotFoundError
  end.

(** [copyfile(src, dst)]: [dst] is opened for writing, which empties it,
    and then filled. *)
Definition copyfile (src dst : path) : io unit :=
  content ← read_file src;
  _ ← io_step;
  files ← get_fs;
  _ ← put_fs (<[dst := File (Raw [])]> files);
  _ ← io_step;
  files ← get_fs;
  put_fs (<[dst := File content]> files).

(** *** The rewrite *)

(** The loop of [create_archive] over [enumerate(archive.namelist())];
    [new_archive] holds the entries written so far. *)
Fixpoint archive_loop (archive : list member) (excluded : list Z)
    (directory : path) (index : nat) (names : list string)
    (new_archive : list member) : io (list member) :=
  match names with
  | [] => mret new_archive
  | filename :: names' =>
      if bool_decide (Z.of_nat index ∈ excluded) then
        archive_loop archive excluded directory (S index) names' new_archive
      else
        _ ← extract archive filename directory;
        entry ← zip_write (os_path_join directory filename);
        archive_loop archive excluded directory (S index) names'
          (new_archive ++ [entry])
  end.

(** [tmpfile] and [tmpdir] are the names that [tempfile] picks for
    [new_archive_file] and [temporary_directory]; the name of the new file
    is what the caller uses of the result. *)
Definition create_archive (tmpfile tmpdir : path) (archive : list member)
    (excluded : list Z) : io path :=
  _ ← named_temporary_file tmpfile;
  _ ← temporary_directory tmpdir;
  new_archive ← archive_loop archive excluded tmpdir 0 (namelist archive) [];
  _ ← cleanup tmpdir;
  _ ← zip_close tmpfile new_archive;
  mret tmpfile.

(** The last two lines of [main]: the archive at [file] is replaced by the
    one without the flagged entries. *)
Definition replace_archive {N} (tmpfile tmpdir file : path) (archive : list member)
    (non_pages : list (nat * N)) : io unit :=
  new_file ← create_archive tmpfile tmpdir archive
               (map (λ x, Z.of_nat x.1) non_pages);
  copyfile new_file file.

(** ** What the specification says of the rewrite *)

(** The entries at the positions that are not excluded, in order. *)
Fixpoint kept_from (excluded : list Z) (index : nat) (archive : list member)
    : list member :=
  match archive with
  | [] => []
  | m :: archive' =>
      if bool_decide (Z.of_nat index ∈ excluded)
      then kept_from excluded (S index) archive'
      else m :: kept_from excluded (S index) archive'
  end.

Definition kept (excluded : list Z) (archive : list member) : list member :=
  kept_from excluded 0 archive.


(** A relative name whose components are all proper: none is empty, [.]
    or [..].  Such a name has no leading or trailing slash. *)
Definition clean_name (filename : string) : Prop :=
  Forall (λ comp, invalid_path_part comp = false) (split_slash filename).

(** No member is named as another one, or as a directory on the way to
    another one. *)
Definition clash_free (archive : list member) : Prop :=
  ∀ (i j : nat) (m m' : member),
    archive !! i = Some m → archive !! j = Some m' → i ≠ j →
    ¬ split_slash m.1 `prefix_of` split_slash m'.1.

(** The entry that [create_archive] writes for a member with a clean name:
    it is named after the staged file. *)
Definition staged (tmpdir : path) (m : member) : member :=
  (join_slash (tmpdir ++ split_slash m.1), m.2).

(** What lies below [directory] when the loop has passed the members
    [finished]: files of members, and the directories on the way to them. *)
Definition staging (directory : path) (finished : list member)
    (files : gmap path node) : Prop :=
  (∀ q, files !! (directory ++ q) = Some Dir →
        q = [] ∨ ∃ (j : nat) (m : member),
                   finished !! j = Some m
                   ∧ q `prefix_of` split_slash m.1 ∧ q ≠ split_slash m.1)
  ∧ (∀ q content, files !! (directory ++ q) = Some (File content) →
        ∃ (j : nat) (m : member),
          finished !! j = Some m ∧ q = split_slash m.1).

(** Nothing exists at or below [directory]. *)
Definition unused (directory : path) (files : gmap path node) : Prop :=
  ∀ p, directory `prefix_of` p → files !! p = None.

Section Staging.
Variables tmpfile tmpdir : path.

(** The paths that are neither the temporary file nor at or below the
    temporary directory. *)
Definition outside (p : path) : Prop := p ≠ tmpfile ∧ ¬ tmpdir `prefix_of` p.

Definition untouched (files files' : gmap path node) : Prop :=
  ∀ p, outside p → files' !! p = files !! p.

(** [m] writes to the staging area only, whether it returns or raises. *)
Definition stages {A} (m : io A) : Prop :=
  ∀ w, untouched (fs w) (fs (m w).2).

End Staging.

(** A small archive, its file, and the names that [tempfile] picked. *)
Definition two_pages : list member :=
  [("001.jpg"%string, Raw [Byte.x41]); ("002.jpg"%string, Raw [Byte.x42])].
Definition issue_file : path := ["home"; "reader"; "issue.cbz"]%string.
Definition picked_file : path := ["tmp"; "tmpa1b2c3d4"]%string.
Definition picked_dir : path := ["tmp"; "tmpe5f6g7h8"]%string.
Definition on_disk (fault : option nat) : world :=
  World {[ issue_file := File (Zip two_pages) ]} fault.

(** ** What the specification says of the analysis *)

Section Described.
Context {N : Type} `{Number N}.

(** The arithmetic mean. *)
Definition mean (xs : list N) : N :=
  nquot (py_sum xs) (of_int (Z.of_nat (length xs))).

Definition average_of (sizes : list (size N)) : size N :=
  (mean (map fst sizes), mean (map snd sizes)).

Definition horizontal_diff (average sz : size N) : N :=
  nabs (nsub (of_int 1) (nquot (nquot sz.1 (of_int 2)) average.1)).

Definition vertical_diff (average sz : size N) : N :=
  nabs (nsub (of_int 1) (nquot sz.2 average.2)).

(** Both differences strictly below the threshold. *)
Definition is_spread (average : size N) (t : N) (sz : size N) : bool :=
  nlt (horizontal_diff average sz) t && nlt (vertical_diff average sz) t.

Definition halved (sz : size N) : size N := (nquot sz.1 (of_int 2), sz.2).

(** Every entry judged against the one [average]. *)
Definition normalized (average : size N) (t : N) (sizes : list (size N))
    : list (size N) :=
  map (λ sz, if is_spread average t sz then halved sz else sz) sizes.

Definition area (sz : size N) : N := nmul sz.1 sz.2.

Definition ratio (average sz : size N) : N := nquot (area sz) (area average).

Definition below (t r : N) : bool := nlt t (nsub (of_int 1) r).

(** The pairs of index and ratio of the entries with [1 - ratio > t]. *)
Definition flagged (average : size N) (t : N) (sizes : list (size N))
    : list (nat * N) :=
  List.filter (λ p, below t p.2) (imap (λ i sz, (i, ratio average sz)) sizes).

End Described.

(** The two scenarios of the specification. *)
Definition spread_scenario : list (Z * Z) :=
  replicate 9 (1000, 1500)%Z ++ [(2000, 1500)%Z].
Definition thumbnail_scenario : list (Z * Z) :=
  replicate 9 (1000, 1500)%Z ++ [(200, 300)%Z].

(** Nine pages and one image three times as wide. *)
Definition wide_scenario : list (Z * Z) :=
  replicate 9 (1000, 1500)%Z ++ [(3000, 1500)%Z].
(** Nine pages and a spread of odd width. *)
Definition odd_scenario : list (Z * Z) :=
  replicate 9 (1000, 1500)%Z ++ [(2001, 1500)%Z].

(** Pixel dimensions are positive. *)
Definition positive_size (sz : size Q) : Prop := (0 < sz.1 ∧ 0 < sz.2)%Q.

(** [x] is within [percent] per cent of [v]. *)
Definition within (percent x v : Q) : Prop :=
  (Qabs (x - v) <= percent / 100 * Qabs v)%Q.

(** The sum of rationals, without intermediate normalisation. *)
Definition Qsum (xs : list Q) : Q := fold_right Qplus 0%Q xs.

(** ** The sizes that the analysis is given *)

Section Pixels.
Context {N : Type} `{Number N}.

(** The sizes that Pillow reports are pairs of [int]. *)
Definition sizes_of_ints (dims : list (Z * Z)) : list (size N) :=
  map (λ p, (of_int p.1, of_int p.2)) dims.

End Pixels.

(** ** Reading the sizes *)

Section Sizes.

(** [Image.open(file).size]: the width and height that Pillow finds in the
    data of an entry, or nothing where it identifies no image. *)
Variable image_size : blob → option (Z * Z).

(** The body of the loop of [get_sizes]: [archive.open(filename)] looks the
    name up and reads from the file of the archive, [Image.open] reads the
    header from the entry; Pillow's [UnidentifiedImageError] is an
    [OSError]. *)
Definition open_image (archive : list member) (filename : string)
    : io (Z * Z) :=
  match getinfo archive filename with
  | Raise e => raise e
  | Ok m =>
      _ ← io_step;
      _ ← io_step;
      match image_size m.2 with
      | Some dims => mret dims
      | None => raise OSError
      end
  end.

Fixpoint sizes_loop (archive : list member) (names : list string)
    (sizes : list (Z * Z)) : io (list (Z * Z)) :=
  match names with
  | [] => mret sizes
  | filename :: names' =>
      dims ← open_image archive filename;
      sizes_loop archive names' (sizes ++ [dims])
  end.

Definition get_sizes (archive : list member) : io (list (Z * Z)) :=
  sizes_loop archive (namelist archive) [].

(** The data that opening the name of [m] gives: with names that repeat,
    that of the last member of the name. *)
Definition opened (archive : list member) (m : member) : blob :=
  match getinfo archive m.1 with
  | Ok m' => m'.2
  | Raise _ => m.2
  end.

(** What Pillow makes of each entry of the archive, read by name. *)
Definition identified (archive : list member) : list (option (Z * Z)) :=
  map (λ m, image_size (opened archive m)) archive.

End Sizes.

(** ** The command *)

(** What ends a run: an exception of the interpreter's own, or
    [zipfile.BadZipFile]. *)
Inductive failure : Set :=
  | Builtin (e : exn)
  | BadZipFile.

Inductive outcome (A : Type) : Type :=
  | Done (a : A)
  | Failed (f : failure).
Arguments Done {A} a.
Arguments Failed {A} f.

(** The escape character that starts a terminal control sequence. *)
Definition esc : Ascii.ascii := "027"%char.

(** [click.style(text, bold=True)] *)
Definition style_bold (text : string) : string :=
  (String esc "[1m" +:+ text +:+ String esc "[0m")%string.

(** [os.path.basename] of a file given by the components of its path. *)
Definition basename (file : path) : string := List.last file ""%string.

Section Command.
Context {N : Type} `{Number N}.

(** A line that [main] prints, by the arguments of its [format]: the styled
    file name, the page, the number of entries, the ratio of the page and
    the target.  How the numbers are laid out as text is left out. *)
Record report : Type := Report {
  report_name : string;
  report_page : nat;
  report_count : nat;
  report_diff : N;
  report_target : N
}.

(** The file system and the lines on standard output. *)
Record session : Type := Session {
  disk : world;
  printed : list report
}.

Definition cli (A : Type) : Type := session → outcome A * session.

#[global] Instance cli_ret : MRet cli := λ A a s, (Done a, s).
#[global] Instance cli_bind : MBind cli := λ A B k m s,
  match m s with
  | (Done a, s') => k a s'
  | (Failed f, s') => (Failed f, s')
  end.

Definition fail {A} (f : failure) : cli A := λ s, (Failed f, s).

Definition lift_io {A} (m : io A) : cli A := λ s,
  match m (disk s) with
  | (Ok a, w) => (Done a, Session w (printed s))
  | (Raise e, w) => (Failed (Builtin e), Session w (printed s))
  end.

Definition lift_result {A} (r : result A) : cli A :=
  match r with
  | Ok a => mret a
  | Raise e => fail (Builtin e)
  end.

(** [click.echo] *)
Definition echo (line : report) : cli unit := λ s,
  (Done (), Session (disk s) (printed s ++ [line])).

(** [ZipFile(file)]: the file is opened and its directory of entries read. *)
Definition zip_open (file : path) : cli (list member) :=
  _ ← lift_io io_step;
  files ← lift_io get_fs;
  match files !! file with
  | None => fail (Builtin FileNotFoundError)
  | Some Dir => fail (Builtin IsADirectoryError)
  | Some (File (Raw _)) => fail BadZipFile
  | Some (File (Zip entries)) => mret entries
  end.

(** The inner loop of [main], over the flagged pages. *)
Fixpoint report_loop (filename : string) (file_count : nat) (target_diff : N)
    (non_pages : list (nat * N)) : cli unit :=
  match non_pages with
  | [] => mret ()
  | (index, diff) :: non_pages' =>
      _ ← echo (Report filename (index + 1) file_count diff target_diff);
      report_loop filename file_count target_diff non_pages'
  end.

(** Lines 99 and 100 of [main]: the new archive is made, the variable
    [new_file] is bound to its temporary file, which releases the temporary
    file of an archive rewritten before ([held]), and the new archive is
    copied over the original.  Returns what [new_file] holds then. *)
Definition rewrite_archive (tmpfile tmpdir : path) (held : option path)
    (file : path) (archive : list member) (non_pages : list (nat * N))
    : cli (option path) :=
  new_file ← lift_io (create_archive tmpfile tmpdir archive
                        (map (λ x, Z.of_nat x.1) non_pages));
  _ ← lift_io (rebind held);
  _ ← lift_io (copyfile new_file file);
  mret (Some new_file).

Section Run.
Variable image_size : blob → option (Z * Z).

(** The body of the loop of [main] for the archive at [file].  [held] is
    what the variable [new_file] holds when the body starts; [tmpfile] and
    [tmpdir] are the names that [tempfile] picks if the archive is
    rewritten.  Returns what [new_file] holds when the body ends. *)
Definition process (dry_run : bool) (threshold target_diff : N)
    (tmpfile tmpdir : path) (held : option path) (file : path)
    : cli (option path) :=
  archive ← zip_open file;
  dims ← lift_io (get_sizes image_size archive);
  analysed ← lift_result (analyse (sizes_of_ints dims) threshold);
  let non_pages := analysed.2 in
  match non_pages with
  | [] => mret held
  | _ =>
      let filename := style_bold (basename file) in
      let file_count := length (namelist archive) in
      _ ← report_loop filename file_count target_diff non_pages;
      if dry_run then mret held
      else rewrite_archive tmpfile tmpdir held file archive non_pages
  end.

(** The names that [tempfile] picks, by the position of the archive on the
    command line. *)
Variable picks : nat → path * path.

Fixpoint main_loop (dry_run : bool) (threshold target_diff : N)
    (position : nat) (held : option path) (files : list path)
    : cli (option path) :=
  match files with
  | [] => mret held
  | file :: files' =>
      held' ← process dry_run threshold target_diff
                (picks position).1 (picks position).2 held file;
      main_loop dry_run threshold target_diff (S position) held' files'
  end.

(** Each argument is given by the components of the absolute path that it
    names.  When [main] returns, [new_file] goes out of scope and the
    temporary file that it holds is released; when [main] raises, the state
    is that of the moment of the exception. *)
Definition main (dry_run : bool) (threshold : N) (files : list path)
    : cli unit :=
  let target_diff := nsub (of_int 1) threshold in
  held ← main_loop dry_run threshold target_diff 0 None files;
  lift_io (rebind held).

(** The lines for the flagged pages of an archive of [file_count] entries. *)
Definition reports_of (file : path) (file_count : nat) (target_diff : N)
    (non_pages : list (nat * N)) : list report :=
  map (λ x, Report (style_bold (basename file)) (x.1 + 1) file_count x.2
              target_diff) non_pages.

(** The archive at [file] in the state [s] is read and analysed, and
    [non_pages] is what the analysis flags in it. *)
Definition analysed_as (threshold : N) (s : session) (file : path)
    (archive : list member) (non_pages : list (nat * N)) : Prop :=
  ∃ (dims : list (Z * Z)) (sizes' : list (size N)),
    fs (disk s) !! file = Some (File (Zip archive))
    ∧ identified image_size archive = map Some dims
    ∧ analyse (sizes_of_ints dims) threshold = Ok (sizes', non_pages).


End Run.

(** [m] only adds lines; unless it adds one it changes no file and returns
    [held], if it returns. *)
Definition quiet_or_loud (held : option path) (m : cli (option path)) : Prop :=
  ∀ s, ∃ lines,
    printed (m s).2 = printed s ++ lines
    ∧ (lines = [] →
       fs (disk (m s).2) = fs (disk s)
       ∧ ∀ held', (m s).1 = Done held' → held' = held).

End Command.

(** The entries of the archive that replaces one with clean names. *)
Definition rewritten {N} (tmpdir : path) (archive : list member)
    (non_pages : list (nat * N)) : list member :=
  map (staged tmpdir) (kept (map (λ x, Z.of_nat x.1) non_pages) archive).

Arguments report N : clear implicits.
Arguments session N : clear implicits.
Arguments cli N A : clear implicits.

(** ** Faults *)

(** [m] meets the file system a number of times that depends on the files
    only: with that many operations left before the fault it runs as it
    does without a fault. *)
Definition steady {A} (m : io A) : Prop :=
  ∀ files, ∃ n : nat,
    fault_at (m (World files None)).2 = None
    ∧ ∀ k : nat, n ≤ k →
        m (World files (Some k))
        = ((m (World files None)).1,
           World (fs (m (World files None)).2) (Some (k - n))).

(** ** A toy image format, for the examples *)

(** Two bytes of header: the width and the height in units of ten pixels. *)
Definition header_size (content : blob) : option (Z * Z) :=
  match content with
  | Raw (w :: h :: _) =>
      Some (10 * Z.of_N (Byte.to_N w), 10 * Z.of_N (Byte.to_N h))%Z
  | _ => None
  end.

(** Three pages of 1000 by 1500 and a thumbnail of 200 by 300. *)
Definition scans : list member :=
  [("001.jpg"%string, Raw [Byte.x64; Byte.x96]);
   ("002.jpg"%string, Raw [Byte.x64; Byte.x96]);
   ("thumb.jpg"%string, Raw [Byte.x14; Byte.x1e]);
   ("003.jpg"%string, Raw [Byte.x64; Byte.x96])].
Definition scans_on_disk (fault : option nat) : world :=
  World {[ issue_file := File (Zip scans) ]} fault.

(** The three pages alone. *)
Definition pages_only : list member :=
  [("001.jpg"%string, Raw [Byte.x64; Byte.x96]);
   ("002.jpg"%string, Raw [Byte.x64; Byte.x96]);
   ("003.jpg"%string, Raw [Byte.x64; Byte.x96])].
Definition pages_on_disk : world :=
  World {[ issue_file := File (Zip pages_only) ]} None.

(** A page and a thumbnail under one name. *)
Definition same_name_twice : list member :=
  [("001.jpg"%string, Raw [Byte.x64; Byte.x96]);
   ("001.jpg"%string, Raw [Byte.x14; Byte.x1e])].

(** [tempfile] picking the same names for every archive. *)
Definition picked (position : nat) : path * path := (picked_file, picked_dir).


(** ** The analysis, for any arithmetic *)

Section AnalysisFacts.
Context {N : Type} `{Number N}.
Implicit Types (sizes : list (size N)) (sz average : size N) (t : N).

Lemma truediv_nonzero (x y : N) :
  is_zero y = false → truediv x y = Ok (nquot x y).
Proof. intros Hy. unfold truediv. by rewrite Hy. Qed.

Lemma truediv_zero (x y : N) :
  is_zero y = true → truediv x y = Raise ZeroDivisionError.
Proof. intros Hy. unfold truediv. by rewrite Hy. Qed.

Lemma truediv_int_nonzero (x : N) (k : Z) :
  k ≠ 0%Z → truediv_int x k = Ok (nquot x (of_int k)).
Proof.
  intros Hk. unfold truediv_int.
  destruct (Z.eqb_spec k 0) as [->|_]; [done|reflexivity].
Qed.

Lemma calculate_average_resolution_nonempty sizes :
  sizes ≠ [] → calculate_average_resolution sizes = Ok (average_of sizes).
Proof.
  intros Hne. unfold calculate_average_resolution, average_of, mean.
  assert (Z.of_nat (length sizes) ≠ 0%Z) as Hcount.
  { destruct sizes; [done|]. simpl. lia. }
  rewrite !truediv_int_nonzero by done. simpl.
  by rewrite !length_map.
Qed.

Lemma spread_diffs_defined average sz :
  is_zero average.1 = false → is_zero average.2 = false →
  spread_diffs average sz
  = Ok (horizontal_diff average sz, vertical_diff average sz).
Proof.
  intros H1 H2. unfold spread_diffs.
  rewrite truediv_int_nonzero by done. simpl.
  rewrite (truediv_nonzero _ _ H1). simpl.
  by rewrite (truediv_nonzero _ _ H2).
Qed.

(** The invariant of the loop: when the iterator stands at [index], the
    entries before it are final and those from it on are still the ones
    the function was given. *)
Lemma spread_loop_invariant average t :
  is_zero average.1 = false → is_zero average.2 = false →
  ∀ (todo finished : list (size N)) (steps : nat),
    length todo ≤ steps →
    spread_loop average t steps (length finished) (finished ++ todo)
    = Ok (finished ++ normalized average t todo).
Proof.
  intros H1 H2. induction todo as [|sz todo IH]; intros finished steps Hsteps.
  - destruct steps as [|steps]; simpl; [done|].
    rewrite lookup_ge_None_2; [done|]. rewrite length_app. simpl. lia.
  - destruct steps as [|steps]; simpl in Hsteps; [lia|].
    simpl. rewrite list_lookup_middle by done.
    rewrite spread_diffs_defined by done. simpl.
    fold (is_spread average t sz).
    destruct (is_spread average t sz) eqn:Hspread.
    + replace (<[length finished:=(nquot sz.1 (of_int 2), sz.2)]> (finished ++ sz :: todo))
        with ((finished ++ [halved sz]) ++ todo).
      2:{ rewrite insert_app_r_alt by done. rewrite Nat.sub_diag. simpl.
          by rewrite <- app_assoc. }
      replace (S (length finished)) with (length (finished ++ [halved sz])).
      2:{ rewrite length_app. simpl. lia. }
      rewrite IH by lia. by rewrite <- app_assoc.
    + replace (finished ++ sz :: todo) with ((finished ++ [sz]) ++ todo)
        by (by rewrite <- app_assoc).
      replace (S (length finished)) with (length (finished ++ [sz])).
      2:{ rewrite length_app. simpl. lia. }
      rewrite IH by lia. by rewrite <- app_assoc.
Qed.

(** With an average of zero in a coordinate the first entry already raises,
    before any entry is rewritten. *)
Lemma detect_double_spreads_zero_average sizes t :
  sizes ≠ [] →
  is_zero (average_of sizes).1 = true ∨ is_zero (average_of sizes).2 = true →
  detect_double_spreads sizes t = Raise ZeroDivisionError.
Proof.
  intros Hne Hzero. unfold detect_double_spreads.
  rewrite calculate_average_resolution_nonempty by done.
  destruct sizes as [|sz sizes]; [done|].
  set (average := average_of (sz :: sizes)) in *.
  cbn [mbind result_bind length spread_loop lookup list_lookup].
  unfold spread_diffs. rewrite truediv_int_nonzero by done.
  cbn [mbind result_bind].
  destruct (is_zero average.1) eqn:Hz1.
  - rewrite (truediv_zero _ _ Hz1). reflexivity.
  - destruct Hzero as [?|Hz2]; [done|].
    rewrite (truediv_nonzero _ _ Hz1). cbn [mbind result_bind].
    rewrite (truediv_zero _ _ Hz2). reflexivity.
Qed.

Lemma detect_double_spreads_normalized sizes t :
  sizes ≠ [] →
  is_zero (average_of sizes).1 = false →
  is_zero (average_of sizes).2 = false →
  detect_double_spreads sizes t = Ok (normalized (average_of sizes) t sizes).
Proof.
  intros Hne H1 H2. unfold detect_double_spreads.
  rewrite calculate_average_resolution_nonempty by done. simpl.
  apply (spread_loop_invariant _ t H1 H2 sizes [] (length sizes)). done.
Qed.

Lemma normalized_lookup average t sizes (i : nat) sz :
  sizes !! i = Some sz →
  normalized average t sizes !! i
  = Some (if is_spread average t sz then halved sz else sz).
Proof. intros Hi. unfold normalized. by rewrite list_lookup_fmap, Hi. Qed.

Lemma normalized_heights average t sizes :
  map snd (normalized average t sizes) = map snd sizes.
Proof.
  unfold normalized. rewrite map_map. apply map_ext. intros sz.
  by destruct (is_spread average t sz).
Qed.

End AnalysisFacts.

Section AnalysisClaims.
Context {N : Type} `{Number N}.
Implicit Types (sizes : list (size N)) (sz average : size N) (t : N).

(** C8.  On the empty size list [calculate_average_resolution] raises
    [ZeroDivisionError]: it returns no value, zero or other, and so do
    [detect_double_spreads] and [detect_non_pages], which start by calling
    it. *)
Theorem empty_sizes_are_fatal t :
  calculate_average_resolution (@nil (size N)) = Raise ZeroDivisionError
  ∧ (∀ average, calculate_average_resolution (@nil (size N)) ≠ Ok average)
  ∧ detect_double_spreads [] t = Raise ZeroDivisionError
  ∧ detect_non_pages [] t = Raise ZeroDivisionError.
Proof.
  assert (calculate_average_resolution (@nil (size N)) = Raise ZeroDivisionError)
    as Hraise by reflexivity.
  split; [exact Hraise|]. split; [|split].
  - intros average. rewrite Hraise. discriminate.
  - unfold detect_double_spreads. by rewrite Hraise.
  - unfold detect_non_pages. by rewrite Hraise.
Qed.

(** C1.  On a non-empty size list whose average width and height are not
    zero (so that the two differences are defined),
    [detect_double_spreads] takes the average once, as the mean of each
    coordinate of the list it is given, and leaves the list in which entry
    [i] is [(w/2, h)] exactly when both differences of the original
    [(w, h)] against that average are strictly below the threshold, and is
    the original entry otherwise; heights never change.  The entries that
    the loop rewrote on the way do not enter the judgement of later ones. *)
Theorem detect_double_spreads_single_pass sizes t :
  sizes ≠ [] →
  is_zero (average_of sizes).1 = false →
  is_zero (average_of sizes).2 = false →
  calculate_average_resolution sizes = Ok (average_of sizes)
  ∧ detect_double_spreads sizes t = Ok (normalized (average_of sizes) t sizes)
  ∧ (∀ i sz, sizes !! i = Some sz →
       normalized (average_of sizes) t sizes !! i
       = Some (if nlt (horizontal_diff (average_of sizes) sz) t
                  && nlt (vertical_diff (average_of sizes) sz) t
               then (nquot sz.1 (of_int 2), sz.2) else sz))
  ∧ map snd (normalized (average_of sizes) t sizes) = map snd sizes.
Proof.
  intros Hne H1 H2. split; [by apply calculate_average_resolution_nonempty|].
  split; [|split].
  - by apply detect_double_spreads_normalized.
  - intros i sz Hi. by rewrite (normalized_lookup _ _ _ _ _ Hi).
  - apply normalized_heights.
Qed.

End AnalysisClaims.

(** A run of C1's theorem: the spread scenario in exact arithmetic. *)
Lemma detect_double_spreads_single_pass_witness :
  detect_double_spreads (Exact.int_sizes spread_scenario) (1 # 5)%Q
  = Ok (normalized (average_of (Exact.int_sizes spread_scenario)) (1 # 5)%Q
          (Exact.int_sizes spread_scenario)).
Proof.
  apply (detect_double_spreads_single_pass
           (Exact.int_sizes spread_scenario) (1 # 5)%Q).
  - discriminate.
  - reflexivity.
  - reflexivity.
Defined.

(** ** The flagged entries, for any arithmetic *)

Section NonPagesFacts.
Context {N : Type} `{Number N}.
Implicit Types (sizes rest : list (size N)) (sz average : size N) (t : N).

(** The pairs that the loop appends when it starts at [index]. *)
Lemma non_pages_loop_appends (average_resolution : N) t :
  is_zero average_resolution = false →
  ∀ rest index indexes,
    non_pages_loop average_resolution t index rest indexes
    = Ok (indexes ++
          List.filter (λ p, below t p.2)
            (imap (λ i sz, (index + i, nquot (area sz) average_resolution)) rest)).
Proof.
  intros Hz. induction rest as [|sz rest IH]; intros index indexes; simpl.
  - by rewrite app_nil_r.
  - rewrite truediv_nonzero by done. simpl. rewrite IH.
    rewrite Nat.add_0_r. unfold area at 2, below at 2. simpl.
    assert (imap ((λ i sz0, (index + i, nquot (area sz0) average_resolution)) ∘ S) rest
            = imap (λ i sz0, (S index + i, nquot (area sz0) average_resolution)) rest)
      as ->.
    { apply imap_ext. intros i x _. simpl. f_equal. lia. }
    destruct (nlt t (nsub (of_int 1) (nquot (nmul sz.1 sz.2) average_resolution)));
      [by rewrite <- app_assoc|done].
Qed.

Lemma detect_non_pages_flagged sizes t :
  sizes ≠ [] →
  is_zero (area (average_of sizes)) = false →
  detect_non_pages sizes t = Ok (flagged (average_of sizes) t sizes).
Proof.
  intros Hne Hz. unfold detect_non_pages.
  rewrite calculate_average_resolution_nonempty by done. simpl.
  by rewrite (non_pages_loop_appends _ t Hz).
Qed.

Lemma elem_of_flagged average t sizes (i : nat) (r : N) :
  (i, r) ∈ flagged average t sizes
  ↔ ∃ sz, sizes !! i = Some sz ∧ r = ratio average sz ∧ below t r = true.
Proof.
  unfold flagged. rewrite list_elem_of_In, filter_In, <- list_elem_of_In.
  rewrite elem_of_lookup_imap. simpl. split.
  - intros [(j & sz & Heq & Hj) Hbelow]. injection Heq as -> ->. eauto.
  - intros (sz & Hi & -> & Hbelow). eauto 6.
Qed.

(** Indices come out in the order of the entries. *)
Lemma flagged_from_sorted (g : size N → N) (P : nat * N → bool) rest :
  ∀ index,
    StronglySorted lt (map fst (List.filter P (imap (λ i sz, (index + i, g sz)) rest)))
    ∧ Forall (le index) (map fst (List.filter P (imap (λ i sz, (index + i, g sz)) rest))).
Proof.
  induction rest as [|sz rest IH]; intros index; simpl.
  - split; constructor.
  - assert (imap ((λ i sz0, (index + i, g sz0)) ∘ S) rest
            = imap (λ i sz0, (S index + i, g sz0)) rest) as ->.
    { apply imap_ext. intros i x _. simpl. f_equal. lia. }
    destruct (IH (S index)) as [Hsorted Hfrom].
    assert (Forall (le index)
              (map fst (List.filter P (imap (λ i sz0, (S index + i, g sz0)) rest))))
      as Hfrom'.
    { eapply Forall_impl; [exact Hfrom|]. simpl. intros; lia. }
    destruct (P (index + 0, g sz)); simpl; [|done].
    rewrite Nat.add_0_r. split; constructor; done.
Qed.

Lemma flagged_sorted average t sizes :
  StronglySorted lt (map fst (flagged average t sizes)).
Proof.
  apply (flagged_from_sorted (ratio average) (λ p, below t p.2) sizes 0).
Qed.

End NonPagesFacts.

(** ** The analysis in exact arithmetic *)

Section ExactFacts.
Implicit Types (sizes : list (size Q)) (sz average : size Q) (t r : Q).
Local Open Scope Q_scope.

Lemma qlt_true (a b : Q) : Exact.qlt a b = true ↔ a < b.
Proof.
  unfold Exact.qlt. rewrite negb_true_iff, <- not_true_iff_false, Qle_bool_iff.
  split; [apply Qnot_le_lt|apply Qlt_not_le].
Qed.


Lemma is_zero_false (a : Q) : ¬ a == 0 → is_zero a = false.
Proof.
  intros Ha. simpl. apply not_true_iff_false. by rewrite Qeq_bool_iff.
Qed.


Lemma fold_nadd_positive (xs : list Q) :
  Forall (λ x, 0 < x) xs → ∀ acc, 0 < acc → 0 < fold_left nadd xs acc.
Proof.
  induction 1 as [|x xs Hx _ IH]; intros acc Hacc; simpl; [done|].
  apply IH. rewrite Qred_correct. lra.
Qed.

Lemma py_sum_positive (xs : list Q) :
  xs ≠ [] → Forall (λ x, 0 < x) xs → 0 < py_sum xs.
Proof.
  intros Hne Hpos. destruct Hpos as [|x xs Hx Hxs]; [done|].
  unfold py_sum. simpl. apply fold_nadd_positive; [done|].
  rewrite Qred_correct. change (inject_Z 0) with 0. lra.
Qed.

Lemma mean_positive (xs : list Q) :
  xs ≠ [] → Forall (λ x, 0 < x) xs → 0 < mean xs.
Proof.
  intros Hne Hpos. unfold mean. simpl. rewrite Qred_correct.
  apply Qlt_shift_div_l.
  - change 0 with (inject_Z 0). rewrite <- Zlt_Qlt.
    destruct xs; [done|]. simpl. lia.
  - rewrite Qmult_0_l. by apply py_sum_positive.
Qed.

Lemma average_of_positive sizes :
  sizes ≠ [] → Forall positive_size sizes → positive_size (average_of sizes).
Proof.
  intros Hne Hpos. unfold average_of. split; simpl fst; simpl snd.
  - apply mean_positive; [by destruct sizes|].
    apply Forall_fmap. eapply Forall_impl; [exact Hpos|]. by intros sz [? ?].
  - apply mean_positive; [by destruct sizes|].
    apply Forall_fmap. eapply Forall_impl; [exact Hpos|]. by intros sz [? ?].
Qed.

(** Positive dimensions give a positive average area. *)
Lemma average_area_positive sizes :
  sizes ≠ [] → Forall positive_size sizes → 0 < area (average_of sizes).
Proof.
  intros Hne Hpos.
  destruct (average_of_positive sizes Hne Hpos) as [H1 H2].
  unfold area. simpl. rewrite Qred_correct. by apply Qmult_lt_0_compat.
Qed.

Lemma below_true t r : below t r = true ↔ t < 1 - r.
Proof.
  unfold below. simpl. rewrite qlt_true, Qred_correct.
  change (inject_Z 1) with 1. done.
Qed.


Lemma calculate_average_resolution_Ok sizes average :
  calculate_average_resolution sizes = Ok average →
  sizes ≠ [] ∧ average = average_of sizes.
Proof.
  intros Hcalc. destruct sizes as [|sz sizes]; [discriminate|].
  split; [done|].
  rewrite calculate_average_resolution_nonempty in Hcalc by done.
  by injection Hcalc.
Qed.

Lemma horizontal_diff_exact average sz :
  horizontal_diff average sz == Qabs (1 - sz.1 / 2 / average.1).
Proof.
  unfold horizontal_diff. simpl. rewrite !Qred_correct.
  change (inject_Z 1) with 1. change (inject_Z 2) with 2. reflexivity.
Qed.

Lemma vertical_diff_exact average sz :
  vertical_diff average sz == Qabs (1 - sz.2 / average.2).
Proof.
  unfold vertical_diff. simpl. rewrite !Qred_correct.
  change (inject_Z 1) with 1. reflexivity.
Qed.

Lemma is_spread_true average t sz :
  is_spread average t sz = true
  ↔ Qabs (1 - sz.1 / 2 / average.1) < t ∧ Qabs (1 - sz.2 / average.2) < t.
Proof.
  unfold is_spread. rewrite andb_true_iff. simpl nlt. rewrite !qlt_true.
  pose proof (horizontal_diff_exact average sz) as Hh.
  pose proof (vertical_diff_exact average sz) as Hv.
  split; intros [H1 H2]; split.
  - by rewrite <- Hh.
  - by rewrite <- Hv.
  - by rewrite Hh.
  - by rewrite Hv.
Qed.

Lemma Qdiv_by_zero (x y : Q) : y == 0 → x / y == 0.
Proof.
  intros Hy. unfold Qdiv. rewrite Hy. change (/ 0) with 0. ring.
Qed.

(** A spread at a threshold below one has a non-zero average behind it. *)
Lemma is_spread_average_nonzero average t sz :
  t <= 1 → is_spread average t sz = true →
  is_zero average.1 = false ∧ is_zero average.2 = false.
Proof.
  intros Ht [Hh Hv]%is_spread_true.
  split; apply is_zero_false; intros Hz.
  - rewrite (Qdiv_by_zero _ _ Hz) in Hh.
    change (Qabs (1 - 0)) with 1 in Hh. lra.
  - rewrite (Qdiv_by_zero _ _ Hz) in Hv.
    change (Qabs (1 - 0)) with 1 in Hv. lra.
Qed.

Lemma fold_nadd_exact (xs : list Q) :
  ∀ acc, fold_left nadd xs acc == acc + Qsum xs.
Proof.
  induction xs as [|x xs IH]; intros acc; simpl.
  - ring.
  - rewrite IH, Qred_correct. ring.
Qed.

Lemma py_sum_exact (xs : list Q) : py_sum xs == Qsum xs.
Proof.
  unfold py_sum. rewrite fold_nadd_exact. change (of_int 0) with 0. ring.
Qed.

Lemma mean_exact (xs : list Q) :
  mean xs == Qsum xs / inject_Z (Z.of_nat (length xs)).
Proof. unfold mean. simpl. by rewrite Qred_correct, py_sum_exact. Qed.

Lemma ratio_exact average sz :
  ratio average sz == sz.1 * sz.2 / (average.1 * average.2).
Proof. unfold ratio, area. simpl. by rewrite !Qred_correct. Qed.

Lemma half_of_odd (w : Z) :
  Z.odd w = true → nquot (inject_Z w) (of_int 2) = w # 2.
Proof.
  intros Hodd. simpl. unfold Qdiv, Qmult, Qinv. simpl.
  rewrite Z.mul_1_r. apply Qcanon.Qred_identity. simpl.
  pose proof (Z.gcd_divide_l w 2) as [a Ha].
  pose proof (Z.gcd_divide_r w 2) as [b Hb].
  pose proof (Z.gcd_nonneg w 2) as Hnonneg.
  rewrite <- Z.negb_even in Hodd. apply negb_true_iff in Hodd.
  assert (Z.gcd w 2 <= 2)%Z as Hle
    by (apply Z.divide_pos_le; [lia|apply Z.gcd_divide_r]).
  assert (Z.gcd w 2 ≠ 0)%Z as Hnz by (intros Hz; rewrite Hz in Hb; lia).
  assert (Z.gcd w 2 = 1 ∨ Z.gcd w 2 = 2)%Z as [Hgcd|Hgcd] by lia; [done|].
  rewrite Hgcd in Ha. rewrite Ha, Z.even_mul in Hodd.
  by rewrite orb_true_r in Hodd.
Qed.

Lemma half_of_odd_not_integer (w z : Z) :
  Z.odd w = true → ¬ (w # 2 == inject_Z z).
Proof.
  intros Hodd Heq. unfold Qeq in Heq. simpl in Heq.
  rewrite <- Z.negb_even in Hodd. apply negb_true_iff in Hodd.
  assert (w = z * 2)%Z as -> by lia.
  rewrite Z.even_mul in Hodd. by rewrite orb_true_r in Hodd.
Qed.

End ExactFacts.

Section ExactClaims.
Implicit Types (sizes : list (size Q)) (sz average : size Q) (t r : Q).
Local Open Scope Q_scope.




(** C7, as amended.  At a threshold in (0, 1/3], an entry that meets the
    spread condition against the average of the list is rewritten to
    [(w/2, h)], and the rewritten entry does not meet the condition again
    against the same average. *)
Theorem halved_spread_is_not_a_spread sizes t average (i : nat) sz :
  0 < t →
  t <= 1 # 3 →
  calculate_average_resolution sizes = Ok average →
  sizes !! i = Some sz →
  is_spread average t sz = true →
  detect_double_spreads sizes t = Ok (normalized average t sizes)
  ∧ normalized average t sizes !! i = Some (halved sz)
  ∧ is_spread average t (halved sz) = false.
Proof.
  intros Ht0 Ht Hcalc Hi Hspread.
  apply calculate_average_resolution_Ok in Hcalc as [Hne ->].
  destruct (is_spread_average_nonzero (average_of sizes) t sz) as [Hz1 Hz2];
    [lra|done|].
  split; [|split].
  - by apply detect_double_spreads_normalized.
  - by rewrite (normalized_lookup _ _ _ _ _ Hi), Hspread.
  - apply not_true_iff_false. intros [Hh' _]%is_spread_true.
    apply is_spread_true in Hspread as [Hh _].
    apply Qabs_Qlt_condition in Hh as [Hh _].
    apply Qabs_Qlt_condition in Hh' as [_ Hh'].
    unfold halved in Hh'. simpl in Hh'. rewrite Qred_correct in Hh'.
    change (inject_Z 2) with 2 in Hh'.
    set (x := sz.1 / 2 / (average_of sizes).1) in *.
    assert (sz.1 / 2 / 2 / (average_of sizes).1 == x * (1 # 2)) as Hx.
    { subst x. unfold Qdiv. change (/ 2) with (1 # 2). ring. }
    rewrite Hx in Hh'. clear Hx Hz1 Hz2. clearbody x. lra.
Qed.

(** A run of C7's theorem: the spread of the spread scenario, at 1/5. *)
Lemma halved_spread_is_not_a_spread_witness :
  is_spread (1100, 1500) (1 # 5) (halved (2000, 1500)) = false.
Proof.
  apply (halved_spread_is_not_a_spread
           (Exact.int_sizes spread_scenario) (1 # 5) (1100, 1500) 9 (2000, 1500)).
  - reflexivity.
  - discriminate.
  - reflexivity.
  - reflexivity.
  - reflexivity.
Defined.

(** C7 as stated fails above 1/3.  At threshold 2/5 the image of width 3000
    among pages of width 1000 is a spread against the average (1200, 1500)
    and is rewritten to width 1500; judged again against the same average,
    (1500, 1500) is a spread once more, and a second pass with that average
    halves it to 750. *)
Lemma halved_spread_is_a_spread_again :
  (0 < 2 # 5 ∧ 2 # 5 < 1)
  ∧ calculate_average_resolution (Exact.int_sizes wide_scenario)
    = Ok (1200, 1500)
  ∧ Exact.int_sizes wide_scenario !! 9%nat = Some (3000, 1500)
  ∧ is_spread (1200, 1500) (2 # 5) (3000, 1500) = true
  ∧ detect_double_spreads (Exact.int_sizes wide_scenario) (2 # 5)
    = Ok (Exact.int_sizes (replicate 9 (1000, 1500)%Z ++ [(1500, 1500)%Z]))
  ∧ halved (3000, 1500) = (1500, 1500)
  ∧ is_spread (1200, 1500) (2 # 5) (1500, 1500) = true
  ∧ spread_loop (1200, 1500) (2 # 5) 10 0
      (Exact.int_sizes (replicate 9 (1000, 1500)%Z ++ [(1500, 1500)%Z]))
    = Ok (Exact.int_sizes (replicate 9 (1000, 1500)%Z ++ [(750, 1500)%Z])).
Proof. vm_compute. repeat split; reflexivity. Qed.

(** C10, as amended.  In exact arithmetic, an entry of odd integer width
    [w] that is classified as a spread is rewritten to width [w/2], which
    is no integer: the division is true division.  The average that
    [calculate_average_resolution] takes of the rewritten list is the exact
    mean of its widths and of its heights, and where this average has an
    area that is not zero, [detect_non_pages] returns for the rewritten
    list the entries whose ratio, the exact quotient of the area of the
    entry by the area of this average, is more than the threshold below
    one, each with this ratio. *)
Theorem odd_spread_gets_half_width sizes t (i : nat) (w h : Z) :
  Z.odd w = true →
  t <= 1 →
  sizes !! i = Some (inject_Z w, inject_Z h) →
  is_spread (average_of sizes) t (inject_Z w, inject_Z h) = true →
  ∃ sizes',
    detect_double_spreads sizes t = Ok sizes'
    ∧ sizes' !! i = Some (w # 2, inject_Z h)
    ∧ (∀ z : Z, ¬ (w # 2 == inject_Z z))
    ∧ calculate_average_resolution sizes' = Ok (average_of sizes')
    ∧ (average_of sizes').1
      == Qsum (map fst sizes') / inject_Z (Z.of_nat (length sizes'))
    ∧ (average_of sizes').2
      == Qsum (map snd sizes') / inject_Z (Z.of_nat (length sizes'))
    ∧ (¬ (average_of sizes').1 * (average_of sizes').2 == 0 →
       ∃ non_pages,
         detect_non_pages sizes' t = Ok non_pages
         ∧ ∀ (j : nat) r,
             (j, r) ∈ non_pages
             ↔ ∃ sz,
                 sizes' !! j = Some sz
                 ∧ r = nquot (nmul sz.1 sz.2)
                         (nmul (average_of sizes').1 (average_of sizes').2)
                 ∧ r == sz.1 * sz.2
                        / ((average_of sizes').1 * (average_of sizes').2)
                 ∧ t < 1 - r).
Proof.
  intros Hodd Ht Hi Hspread.
  assert (sizes ≠ []) as Hne by (by destruct sizes).
  destruct (is_spread_average_nonzero (average_of sizes) t _ Ht Hspread)
    as [Hz1 Hz2].
  pose proof (detect_double_spreads_normalized sizes t Hne Hz1 Hz2) as Hrun.
  exists (normalized (average_of sizes) t sizes).
  assert (normalized (average_of sizes) t sizes ≠ []) as Hne'.
  { unfold normalized. by destruct sizes. }
  split; [done|]. split; [|split; [|split; [|split; [|split]]]].
  - rewrite (normalized_lookup _ _ _ _ _ Hi), Hspread.
    unfold halved. simpl fst. simpl snd. by rewrite half_of_odd.
  - intros z. by apply half_of_odd_not_integer.
  - by apply calculate_average_resolution_nonempty.
  - pose proof (mean_exact (map fst (normalized (average_of sizes) t sizes))) as Hm.
    by rewrite length_map in Hm.
  - pose proof (mean_exact (map snd (normalized (average_of sizes) t sizes))) as Hm.
    by rewrite length_map in Hm.
  - intros Harea.
    exists (flagged (average_of (normalized (average_of sizes) t sizes)) t
              (normalized (average_of sizes) t sizes)).
    split.
    + apply detect_non_pages_flagged; [done|]. apply is_zero_false.
      unfold area. cbn [nmul Exact.number]. by rewrite Qred_correct.
    + intros j r. rewrite elem_of_flagged. split.
      * intros (sz & Hj & -> & Hbelow%below_true). exists sz.
        repeat split; try done. apply ratio_exact.
      * intros (sz & Hj & -> & _ & Hbelow). exists sz.
        repeat split; try done. by apply below_true.
Qed.

(** A run of C10's theorem: the spread of width 2001, at 1/5. *)
Lemma odd_spread_gets_half_width_witness :
  ∃ sizes',
    detect_double_spreads (Exact.int_sizes odd_scenario) (1 # 5) = Ok sizes'
    ∧ sizes' !! 9%nat = Some (2001 # 2, 1500).
Proof.
  destruct (odd_spread_gets_half_width
              (Exact.int_sizes odd_scenario) (1 # 5) 9 2001 1500)
    as (sizes' & Hrun & Hat & _).
  - reflexivity.
  - discriminate.
  - reflexivity.
  - reflexivity.
  - exists sizes'. by split.
Defined.

End ExactClaims.

(** ** The scenarios of the specification, in both arithmetics *)

Section Scenarios.
Local Open Scope Q_scope.

(** C6.  Nine pages of (1000, 1500) and one image of (2000, 1500), at
    threshold 0.2: [detect_double_spreads] rewrites entry 9 to (1000, 1500)
    and leaves entries 0 to 8 as they are, and [detect_non_pages] on the
    result returns the empty list.  So it is in exact arithmetic and in
    binary64. *)
Theorem spread_scenario_is_normalized :
  detect_double_spreads (Exact.int_sizes spread_scenario) (1 # 5)
  = Ok (Exact.int_sizes (replicate 9 (1000, 1500)%Z ++ [(1000, 1500)%Z]))
  ∧ detect_non_pages
      (Exact.int_sizes (replicate 9 (1000, 1500)%Z ++ [(1000, 1500)%Z])) (1 # 5)
    = Ok []
  ∧ analyse (Exact.int_sizes spread_scenario) (1 # 5)
    = Ok (Exact.int_sizes (replicate 9 (1000, 1500)%Z ++ [(1000, 1500)%Z]), [])
  ∧ detect_double_spreads (Binary64.int_sizes spread_scenario)
      Binary64.default_threshold
    = Ok (Binary64.int_sizes (replicate 9 (1000, 1500)%Z ++ [(1000, 1500)%Z]))
  ∧ detect_non_pages
      (Binary64.int_sizes (replicate 9 (1000, 1500)%Z ++ [(1000, 1500)%Z]))
      Binary64.default_threshold
    = Ok []
  ∧ analyse (Binary64.int_sizes spread_scenario) Binary64.default_threshold
    = Ok (Binary64.int_sizes (replicate 9 (1000, 1500)%Z ++ [(1000, 1500)%Z]),
          []).
Proof. repeat split; vm_compute; reflexivity. Qed.

(** C5, as amended.  Nine pages of (1000, 1500) and one image of
    (200, 300), at threshold 0.2: [detect_double_spreads] changes no entry;
    the average is (920, 1380), the average area 1,269,600; the ratio of
    the small entry is 25/529, about 0.0473; [detect_non_pages] flags index
    9 and nothing else.  Binary64 gives the same list, average and index,
    with a ratio within 10^-17 of 25/529. *)
Theorem thumbnail_scenario_is_flagged :
  detect_double_spreads (Exact.int_sizes thumbnail_scenario) (1 # 5)
  = Ok (Exact.int_sizes thumbnail_scenario)
  ∧ calculate_average_resolution (Exact.int_sizes thumbnail_scenario)
    = Ok (920, 1380)
  ∧ area (920, 1380) = 1269600
  ∧ ratio (920, 1380) (200, 300) = 25 # 529
  ∧ within (1 # 10) (25 # 529) (473 # 10000)
  ∧ 1 # 5 < 1 - (25 # 529)
  ∧ detect_non_pages (Exact.int_sizes thumbnail_scenario) (1 # 5)
    = Ok [(9%nat, 25 # 529)]
  ∧ detect_double_spreads (Binary64.int_sizes thumbnail_scenario)
      Binary64.default_threshold
    = Ok (Binary64.int_sizes thumbnail_scenario)
  ∧ calculate_average_resolution (Binary64.int_sizes thumbnail_scenario)
    = Ok (Binary64.of_Z 920, Binary64.of_Z 1380)
  ∧ area (Binary64.of_Z 920, Binary64.of_Z 1380) = Binary64.of_Z 1269600
  ∧ ∃ r q,
      detect_non_pages (Binary64.int_sizes thumbnail_scenario)
        Binary64.default_threshold
      = Ok [(9%nat, r)]
      ∧ Binary64.to_Q r = Some q
      ∧ Qabs (q - (25 # 529)) <= 1 # 10 ^ 17.
Proof.
  repeat split; try (vm_compute; reflexivity); try (vm_compute; discriminate).
  eexists _, _. repeat split; try (vm_compute; reflexivity).
  vm_compute. discriminate.
Qed.

(** C5 as stated: the average area is not about 1,410,000 and the ratio of
    the small entry is not about 0.0426; neither is within five per cent of
    the figure given. *)
Lemma thumbnail_scenario_figures_differ :
  calculate_average_resolution (Exact.int_sizes thumbnail_scenario)
  = Ok (920, 1380)
  ∧ area (920, 1380) = 1269600
  ∧ ¬ within 5 1269600 1410000
  ∧ detect_non_pages (Exact.int_sizes thumbnail_scenario) (1 # 5)
    = Ok [(9%nat, 25 # 529)]
  ∧ ¬ within 5 (25 # 529) (426 # 10000).
Proof.
  repeat split; try (vm_compute; reflexivity);
    intros Hwithin; apply Hwithin; vm_compute; reflexivity.
Qed.

(** C10 as stated fails in binary64.  With nine pages of width 1000 and a
    spread of width 2001, the rewritten list holds exactly 1000 nine times
    and 2001/2, whose mean is 20001/20; the average that
    [calculate_average_resolution] returns for it is the double
    4398266413429555 / 2^42, which is not 20001/20. *)
Lemma binary64_average_is_rounded :
  (sizes' ← detect_double_spreads (Binary64.int_sizes odd_scenario)
              Binary64.default_threshold;
   average ← calculate_average_resolution sizes';
   Ok (map (λ sz, Binary64.to_Q sz.1) sizes', Binary64.to_Q average.1))
  = Ok (replicate 9 (Some 1000) ++ [Some (2001 # 2)],
        Some (4398266413429555 # 4398046511104))
  ∧ Qsum (replicate 9 1000 ++ [2001 # 2]) / 10 == 20001 # 20
  ∧ ¬ (4398266413429555 # 4398046511104 == 20001 # 20)
  ∧ (sizes' ← detect_double_spreads (Exact.int_sizes odd_scenario) (1 # 5);
     average ← calculate_average_resolution sizes';
     Ok average.1)
    = Ok (20001 # 20).
Proof.
  repeat split; try (vm_compute; reflexivity).
  vm_compute. discriminate.
Qed.

End Scenarios.

(** ** The rewrite writes to the staging area only *)

Section StagingFacts.
Variables tmpfile tmpdir : path.

Lemma untouched_refl files : untouched tmpfile tmpdir files files.
Proof. by intros p _. Qed.

Lemma untouched_trans files1 files2 files3 :
  untouched tmpfile tmpdir files1 files2 →
  untouched tmpfile tmpdir files2 files3 →
  untouched tmpfile tmpdir files1 files3.
Proof. intros H12 H23 p Hp. by rewrite H23, H12. Qed.

Lemma untouched_insert files p x :
  ¬ outside tmpfile tmpdir p →
  untouched tmpfile tmpdir files (<[p := x]> files).
Proof.
  intros Hp q Hq. apply lookup_insert_ne. by intros ->.
Qed.

Lemma not_outside_below (comps : list string) :
  ¬ outside tmpfile tmpdir (tmpdir ++ comps).
Proof. intros [_ Hpre]. apply Hpre. by apply prefix_app_r. Qed.

Lemma not_outside_tmpfile : ¬ outside tmpfile tmpdir tmpfile.
Proof. by intros [Hne _]. Qed.

Lemma stages_ret {A} (a : A) : stages tmpfile tmpdir (mret a).
Proof. intros w. apply untouched_refl. Qed.

Lemma stages_raise {A} (e : exn) : stages tmpfile tmpdir (@raise A e).
Proof. intros w. apply untouched_refl. Qed.

Lemma stages_bind {A B} (m : io A) (k : A → io B) :
  stages tmpfile tmpdir m →
  (∀ a, stages tmpfile tmpdir (k a)) →
  stages tmpfile tmpdir (m ≫= k).
Proof.
  intros Hm Hk w. specialize (Hm w).
  unfold mbind, io_bind. destruct (m w) as [[a|e] w1]; simpl in *; [|done].
  eapply untouched_trans; [exact Hm|apply Hk].
Qed.

Lemma stages_io_step : stages tmpfile tmpdir io_step.
Proof.
  intros w. unfold io_step.
  destruct (fault_at w) as [[|k]|]; apply untouched_refl.
Qed.

(** Storing [files'] is staging when [files'] differs from the current
    files in the staging area only. *)
Lemma stages_with_fs {A} (k : gmap path node → io A) :
  (∀ w, untouched tmpfile tmpdir (fs w) (fs (k (fs w) w).2)) →
  stages tmpfile tmpdir (get_fs ≫= k).
Proof. intros Hk w. apply Hk. Qed.

Lemma make_dirs_cons (base : path) (comp : string) (comps : list string)
    (files : gmap path node) :
  make_dirs base (comp :: comps) files
  = match files !! (base ++ [comp]) with
    | Some (File _) => Raise NotADirectoryError
    | _ => make_dirs (base ++ [comp]) comps (<[base ++ [comp] := Dir]> files)
    end.
Proof. reflexivity. Qed.

Lemma make_dirs_untouched (comps : list string) :
  ∀ (base : path) files files',
    tmpdir `prefix_of` base →
    make_dirs base comps files = Ok files' →
    untouched tmpfile tmpdir files files'.
Proof.
  induction comps as [|comp comps IH]; intros base files files' Hbase Hmake.
  - injection Hmake as <-. apply untouched_refl.
  - rewrite make_dirs_cons in Hmake.
    assert (tmpdir `prefix_of` base ++ [comp]) as Hbase'
      by by apply prefix_app_r.
    assert (untouched tmpfile tmpdir files (<[base ++ [comp] := Dir]> files))
      as Hins.
    { apply untouched_insert. by intros [_ Hpre]. }
    destruct (files !! (base ++ [comp])) as [[content|]|];
      [discriminate| |];
      (eapply untouched_trans; [exact Hins|]);
      by apply (IH (base ++ [comp])).
Qed.

Lemma stages_extract archive filename :
  stages tmpfile tmpdir (extract archive filename tmpdir).
Proof.
  unfold extract. destruct (getinfo archive filename) as [m|e];
    [|apply stages_raise].
  apply stages_bind; [apply stages_io_step|]. intros _.
  apply stages_with_fs. intros w.
  set (comps := List.filter (λ c, negb (invalid_path_part c)) (split_slash m.1)).
  destruct (ends_with_slash m.1).
  - destruct (fs w !! (tmpdir ++ comps)) as [[content|]|];
      [apply untouched_refl| |];
      (destruct (make_dirs tmpdir comps (fs w)) as [files'|e] eqn:Hmake;
       [|apply untouched_refl]);
      simpl; by apply (make_dirs_untouched comps tmpdir (fs w)).
  - destruct (make_dirs tmpdir (removelast comps) (fs w)) as [files'|e] eqn:Hmake;
      [|apply untouched_refl].
    assert (untouched tmpfile tmpdir (fs w) files') as Hdirs.
    { by apply (make_dirs_untouched (removelast comps) tmpdir). }
    destruct (files' !! (tmpdir ++ comps)) as [[content|]|];
      [|apply untouched_refl|];
      (destruct (bool_decide (comps = [])); [apply untouched_refl|]);
      simpl; (eapply untouched_trans; [exact Hdirs|]);
      apply untouched_insert, not_outside_below.
Qed.

Lemma stages_zip_write file : stages tmpfile tmpdir (zip_write file).
Proof.
  unfold zip_write.
  apply stages_bind; [apply stages_io_step|]. intros _.
  apply stages_with_fs. intros w.
  destruct file as [|c file]; [apply untouched_refl|].
  destruct (fs w !! (c :: file)) as [[content|]|]; apply untouched_refl.
Qed.

Lemma stages_named_temporary_file :
  stages tmpfile tmpdir (named_temporary_file tmpfile).
Proof.
  unfold named_temporary_file.
  apply stages_bind; [apply stages_io_step|]. intros _.
  apply stages_with_fs. intros w. simpl.
  apply untouched_insert, not_outside_tmpfile.
Qed.

Lemma stages_temporary_directory :
  stages tmpfile tmpdir (temporary_directory tmpdir).
Proof.
  unfold temporary_directory.
  apply stages_bind; [apply stages_io_step|]. intros _.
  apply stages_with_fs. intros w. simpl.
  apply untouched_insert. by intros [_ Hpre].
Qed.

Lemma stages_cleanup : stages tmpfile tmpdir (cleanup tmpdir).
Proof.
  unfold cleanup.
  apply stages_bind; [apply stages_io_step|]. intros _.
  apply stages_with_fs. intros w. simpl. intros p [_ Hp].
  destruct (fs w !! p) as [x|] eqn:Hlookup.
  - by apply map_lookup_filter_Some.
  - apply map_lookup_filter_None. left. done.
Qed.

Lemma stages_zip_close entries :
  stages tmpfile tmpdir (zip_close tmpfile entries).
Proof.
  intros w. unfold zip_close, io_step.
  destruct (fault_at w) as [[|k]|]; simpl;
    apply untouched_refl || apply untouched_insert, not_outside_tmpfile.
Qed.

Lemma stages_archive_loop archive excluded (names : list string) :
  ∀ index new_archive,
    stages tmpfile tmpdir
      (archive_loop archive excluded tmpdir index names new_archive).
Proof.
  induction names as [|filename names IH]; intros index new_archive; simpl.
  - apply stages_ret.
  - destruct (bool_decide (Z.of_nat index ∈ excluded)); [apply IH|].
    apply stages_bind; [apply stages_extract|]. intros _.
    apply stages_bind; [apply stages_zip_write|]. intros entry. apply IH.
Qed.

Lemma stages_create_archive archive excluded :
  stages tmpfile tmpdir (create_archive tmpfile tmpdir archive excluded).
Proof.
  unfold create_archive.
  apply stages_bind; [apply stages_named_temporary_file|]. intros _.
  apply stages_bind; [apply stages_temporary_directory|]. intros _.
  apply stages_bind; [apply stages_archive_loop|]. intros new_archive.
  apply stages_bind; [apply stages_cleanup|]. intros _.
  apply stages_bind; [apply stages_zip_close|]. intros _.
  apply stages_ret.
Qed.

End StagingFacts.

(** C4, as amended.  [create_archive] writes to the temporary file and
    below the temporary directory only.  The file of the original archive is neither
    ([tempfile] picks names that are not in use), so it holds the same
    content after [create_archive] as before, whether [create_archive]
    returned or raised, at whichever step; and when [create_archive] raises
    the copy over the original is never started: the rewrite ends with the
    same exception in the same state. *)
Theorem original_untouched_when_staging_fails {N : Type}
    (tmpfile tmpdir file : path) (archive : list member)
    (non_pages : list (nat * N)) (w : world) :
  file ≠ tmpfile →
  ¬ tmpdir `prefix_of` file →
  fs (create_archive tmpfile tmpdir archive
        (map (λ x, Z.of_nat x.1) non_pages) w).2 !! file
  = fs w !! file
  ∧ (∀ e w',
       create_archive tmpfile tmpdir archive
         (map (λ x, Z.of_nat x.1) non_pages) w = (Raise e, w') →
       replace_archive tmpfile tmpdir file archive non_pages w = (Raise e, w')
       ∧ fs w' !! file = fs w !! file)
  ∧ (∀ new_file w',
       create_archive tmpfile tmpdir archive
         (map (λ x, Z.of_nat x.1) non_pages) w = (Ok new_file, w') →
       replace_archive tmpfile tmpdir file archive non_pages w
       = copyfile new_file file w'
       ∧ fs w' !! file = fs w !! file).
Proof.
  intros Hfile Hdir.
  pose proof (stages_create_archive tmpfile tmpdir archive
                (map (λ x, Z.of_nat x.1) non_pages) w file (conj Hfile Hdir))
    as Hstaged.
  split; [done|]. split.
  - intros e w' Hrun. rewrite Hrun in Hstaged. split; [|done].
    unfold replace_archive, mbind, io_bind. by rewrite Hrun.
  - intros new_file w' Hrun. rewrite Hrun in Hstaged. split; [|done].
    unfold replace_archive, mbind, io_bind. by rewrite Hrun.
Qed.

(** A run of C4's theorem: the fourth operation of the rewrite, the write
    of the first page to the new archive, fails. *)
Lemma original_untouched_when_staging_fails_witness :
  (create_archive picked_file picked_dir two_pages [1%Z] (on_disk (Some 3%nat))).1
  = Raise OSError
  ∧ fs (create_archive picked_file picked_dir two_pages [1%Z]
          (on_disk (Some 3%nat))).2 !! issue_file
    = fs (on_disk (Some 3%nat)) !! issue_file.
Proof.
  split; [vm_compute; reflexivity|].
  apply (original_untouched_when_staging_fails
           picked_file picked_dir issue_file two_pages [(1%nat, 0%Q)]
           (on_disk (Some 3%nat))).
  - discriminate.
  - intros [k Hk]. discriminate.
Defined.

(** C4 as stated fails: the rewrite is no atomic exchange.  With two pages
    of which the second is flagged, the new archive is complete in its
    temporary file after six operations; the copy then opens the original
    for writing, and an error at the ninth operation, when the content is
    to be written, ends the rewrite with [OSError] and leaves the original
    empty.  An error at the sixth operation, where the end records of the
    new archive are written as the [ZipFile] is released, is not even
    reported: the rewrite ends well, and what it has copied over the
    original is a temporary file without end records, no zip archive. *)
Lemma original_is_lost_when_the_copy_fails :
  fs (on_disk (Some 8%nat)) !! issue_file = Some (File (Zip two_pages))
  ∧ (replace_archive picked_file picked_dir issue_file two_pages
       [(1%nat, 0%Q)] (on_disk (Some 8%nat))).1
    = Raise OSError
  ∧ fs (replace_archive picked_file picked_dir issue_file two_pages
          [(1%nat, 0%Q)] (on_disk (Some 8%nat))).2 !! issue_file
    = Some (File (Raw []))
  ∧ (replace_archive picked_file picked_dir issue_file two_pages
       [(1%nat, 0%Q)] (on_disk (Some 5%nat))).1
    = Ok ()
  ∧ ∃ bytes,
      fs (replace_archive picked_file picked_dir issue_file two_pages
            [(1%nat, 0%Q)] (on_disk (Some 5%nat))).2 !! issue_file
      = Some (File (Raw bytes)).
Proof.
  repeat split; try (vm_compute; reflexivity).
  exists []. vm_compute. reflexivity.
Qed.

(** ** Which entries the rewrite keeps *)

Section KeptFacts.
Implicit Types (archive rest : list member) (excluded : list Z).





Lemma kept_from_sublist excluded archive :
  ∀ index, kept_from excluded index archive `sublist_of` archive.
Proof.
  induction archive as [|m archive IH]; intros index; simpl; [done|].
  case_bool_decide; [by apply sublist_cons|by apply sublist_skip].
Qed.

Lemma kept_from_length excluded archive :
  ∀ index,
    length (kept_from excluded index archive)
    = length (filter (λ i, i ∉ excluded)
                (seqZ (Z.of_nat index) (Z.of_nat (length archive)))).
Proof.
  induction archive as [|m archive IH]; intros index; [done|].
  rewrite seqZ_cons by (simpl; lia). rewrite filter_cons.
  replace (Z.succ (Z.of_nat index)) with (Z.of_nat (S index)) by lia.
  replace (Z.pred (Z.of_nat (length (m :: archive))))
    with (Z.of_nat (length archive)) by (simpl; lia).
  change (kept_from excluded index (m :: archive))
    with (if bool_decide (Z.of_nat index ∈ excluded)
          then kept_from excluded (S index) archive
          else m :: kept_from excluded (S index) archive).
  case_bool_decide; case_decide; try done; cbn [length]; by rewrite IH.
Qed.

(** As many entries go as there are excluded positions. *)
Lemma kept_length excluded archive :
  NoDup excluded →
  (∀ i, i ∈ excluded → (0 ≤ i < Z.of_nat (length archive))%Z) →
  length (kept excluded archive) + length excluded = length archive.
Proof.
  intros Hnodup Hrange. unfold kept. rewrite kept_from_length.
  set (positions := seqZ (Z.of_nat 0) (Z.of_nat (length archive))).
  assert (filter (λ i, i ∈ excluded) positions ≡ₚ excluded) as Hgone.
  { apply NoDup_Permutation; [apply NoDup_filter, NoDup_seqZ|done|].
    intros i. rewrite list_elem_of_filter. subst positions.
    rewrite elem_of_seqZ. split; [by intros [? _]|].
    intros Hi. split; [done|]. specialize (Hrange i Hi). simpl. lia. }
  pose proof (filter_app_complement (λ i, i ∈ excluded) positions) as Hsplit.
  apply Permutation_length in Hsplit. rewrite length_app, Hgone in Hsplit.
  subst positions. rewrite length_seqZ in Hsplit. lia.
Qed.

End KeptFacts.

(** ** The rewrite of an archive with clean names *)

Section RewriteFacts.
Implicit Types (archive rest : list member) (excluded : list Z) (w : world).




Lemma io_step_no_fault w : fault_at w = None → io_step w = (Ok (), w).
Proof. intros Hfault. unfold io_step. by rewrite Hfault. Qed.

Lemma split_slash_cons (c : ascii) (s : string) :
  split_slash (String c s)
  = if Ascii.eqb c slash then EmptyString :: split_slash s
    else match split_slash s with
         | [] => [String c EmptyString]
         | comp :: comps => String c comp :: comps
         end.
Proof. reflexivity. Qed.

Lemma split_slash_nonempty (s : string) : split_slash s ≠ [].
Proof.
  destruct s as [|c s]; [done|]. rewrite split_slash_cons.
  destruct (Ascii.eqb c slash); [done|]. by destruct (split_slash s).
Qed.

Lemma split_slash_empty (s : string) :
  split_slash s = [EmptyString] → s = EmptyString.
Proof.
  destruct s as [|c s]; [done|]. rewrite split_slash_cons.
  pose proof (split_slash_nonempty s).
  destruct (Ascii.eqb c slash); [intros [=]; done|].
  by destruct (split_slash s).
Qed.

Lemma starts_with_slash_first (s : string) :
  starts_with_slash s = true → ∃ comps, split_slash s = EmptyString :: comps.
Proof.
  destruct s as [|c s]; [done|]. simpl. intros ->. eauto.
Qed.

Lemma ends_with_slash_last (s : string) :
  ends_with_slash s = true → ∃ comps, split_slash s = comps ++ [EmptyString].
Proof.
  induction s as [|c s IH]; [done|]. intros Hends.
  destruct s as [|c' s].
  - simpl in Hends. simpl. rewrite Hends. by exists [EmptyString].
  - destruct IH as [comps Hcomps]; [done|].
    rewrite split_slash_cons, Hcomps.
    destruct (Ascii.eqb c slash); [by exists (EmptyString :: comps)|].
    destruct comps as [|comp comps].
    + by apply split_slash_empty in Hcomps.
    + by exists (String c comp :: comps).
Qed.

Lemma clean_name_no_leading_slash (filename : string) :
  clean_name filename → starts_with_slash filename = false.
Proof.
  intros Hclean. apply not_true_iff_false. intros Hstarts.
  apply starts_with_slash_first in Hstarts as [comps Hsplit].
  unfold clean_name in Hclean. rewrite Hsplit in Hclean.
  by apply Forall_cons in Hclean as [? _].
Qed.

Lemma clean_name_no_trailing_slash (filename : string) :
  clean_name filename → ends_with_slash filename = false.
Proof.
  intros Hclean. apply not_true_iff_false. intros Hends.
  apply ends_with_slash_last in Hends as [comps Hsplit].
  unfold clean_name in Hclean. rewrite Hsplit in Hclean.
  apply Forall_app in Hclean as [_ Hlast].
  by apply Forall_cons in Hlast as [? _].
Qed.

Lemma resolve_clean (comps : list string) :
  Forall (λ comp, invalid_path_part comp = false) comps →
  ∀ base : path, resolve base comps = base ++ comps.
Proof.
  induction 1 as [|comp comps Hvalid _ IH]; intros base; simpl.
  - by rewrite app_nil_r.
  - unfold invalid_path_part in Hvalid. apply bool_decide_eq_false in Hvalid.
    rewrite !bool_decide_eq_false_2; [|intros ->; apply Hvalid; set_solver ..].
    simpl. rewrite IH. by rewrite <- app_assoc.
Qed.

Lemma filter_clean (comps : list string) :
  Forall (λ comp, invalid_path_part comp = false) comps →
  List.filter (λ c, negb (invalid_path_part c)) comps = comps.
Proof.
  induction 1 as [|comp comps Hvalid _ IH]; simpl; [done|].
  by rewrite Hvalid, IH.
Qed.

Lemma clean_name_resolves (directory : path) (filename : string) :
  clean_name filename →
  os_path_join directory filename = directory ++ split_slash filename.
Proof.
  intros Hclean. unfold os_path_join.
  rewrite clean_name_no_leading_slash by done. by apply resolve_clean.
Qed.

Lemma clash_free_distinct archive : clash_free archive → NoDup (namelist archive).
Proof.
  intros Hfree. apply NoDup_alt. intros i j name Hi Hj.
  unfold namelist in Hi, Hj. rewrite list_lookup_fmap in Hi, Hj.
  destruct (archive !! i) as [m|] eqn:Hmi; [|done].
  destruct (archive !! j) as [m'|] eqn:Hmj; [|done].
  simpl in Hi, Hj. injection Hi as Hi. injection Hj as Hj.
  destruct (decide (i = j)) as [|Hne]; [done|].
  destruct (Hfree i j m m' Hmi Hmj Hne). by rewrite Hi, Hj.
Qed.

Lemma distinct_names_same_member archive (m m' : member) :
  NoDup (namelist archive) → m ∈ archive → m' ∈ archive → m.1 = m'.1 → m = m'.
Proof.
  intros Hnodup [i Hi]%list_elem_of_lookup [j Hj]%list_elem_of_lookup Hname.
  assert (i = j) as ->.
  { apply (NoDup_lookup (namelist archive) i j m.1 Hnodup); unfold namelist.
    - by rewrite list_lookup_fmap, Hi.
    - by rewrite list_lookup_fmap, Hj, Hname. }
  rewrite Hi in Hj. by injection Hj.
Qed.

(** With distinct names, looking a member up by its name finds it. *)
Lemma getinfo_unique archive (i : nat) (m : member) :
  NoDup (namelist archive) → archive !! i = Some m → getinfo archive m.1 = Ok m.
Proof.
  intros Hnodup Hi. unfold getinfo.
  destruct (List.find (λ m', bool_decide (m'.1 = m.1)) (rev archive))
    as [m'|] eqn:Hfind.
  - apply find_some in Hfind as [Hin Hname].
    apply bool_decide_eq_true in Hname.
    apply in_rev, list_elem_of_In in Hin.
    apply list_elem_of_lookup_2 in Hi.
    by rewrite (distinct_names_same_member archive m' m Hnodup Hin Hi Hname).
  - apply list_elem_of_lookup_2, list_elem_of_In, in_rev in Hi.
    apply (find_none _ _ Hfind) in Hi. by apply bool_decide_eq_false in Hi.
Qed.

(** [make_dirs] succeeds when no file is in the way: the directories are
    there afterwards and nothing else has changed. *)
Lemma make_dirs_ok (comps : list string) :
  ∀ (base : path) (files : gmap path node),
    (∀ k content, 0 < k ≤ length comps →
                  files !! (base ++ take k comps) ≠ Some (File content)) →
    ∃ files',
      make_dirs base comps files = Ok files'
      ∧ (∀ k, 0 < k ≤ length comps → files' !! (base ++ take k comps) = Some Dir)
      ∧ (∀ p, (∀ k, 0 < k ≤ length comps → p ≠ base ++ take k comps) →
              files' !! p = files !! p).
Proof.
  induction comps as [|comp comps IH]; intros base files Hfree.
  - exists files. split; [done|]. split; [simpl; intros; lia|done].
  - rewrite make_dirs_cons.
    assert (∀ k, base ++ take (S k) (comp :: comps)
                 = (base ++ [comp]) ++ take k comps) as Htake
      by (intros k; by rewrite <- app_assoc).
    assert (∀ k, 0 < k ≤ length comps →
                 base ++ [comp] ≠ (base ++ [comp]) ++ take k comps) as Hlonger.
    { intros k Hk Heq. apply (f_equal length) in Heq.
      rewrite !length_app, length_take in Heq. simpl in Heq.
      lia. }
    destruct (IH (base ++ [comp]) (<[base ++ [comp] := Dir]> files))
      as (files' & Hmake & Hdirs & Hrest).
    { intros k content Hk. rewrite lookup_insert_ne by by apply Hlonger.
      rewrite <- Htake. apply Hfree. simpl. lia. }
    exists files'. split; [|split].
    + assert (∀ content, files !! (base ++ [comp]) ≠ Some (File content))
        as Hfirst.
      { intros content. apply (Hfree 1). simpl. lia. }
      destruct (files !! (base ++ [comp])) as [[content|]|];
        [by destruct (Hfirst content)|done|done].
    + intros [|[|k]] Hk; [lia| |].
      * simpl. rewrite Hrest by (intros k Hk'; by apply Hlonger).
        apply lookup_insert_eq.
      * rewrite Htake. apply Hdirs. simpl in Hk. lia.
    + intros p Hp. rewrite Hrest.
      * apply lookup_insert_ne. apply not_eq_sym.
        apply (Hp 1). simpl. lia.
      * intros k Hk. rewrite <- Htake. apply Hp. simpl. lia.
Qed.

Lemma proper_prefix_take (q comps : list string) :
  q `prefix_of` comps → q ≠ comps →
  q = take (length q) (removelast comps) ∧ length q ≤ length (removelast comps).
Proof.
  intros [r ->] Hne.
  assert (r ≠ []) as Hr by (intros ->; by rewrite app_nil_r in Hne).
  rewrite removelast_app by done. split.
  - by rewrite take_app_length.
  - rewrite length_app. lia.
Qed.

Lemma take_removelast_proper (comps : list string) (k : nat) :
  comps ≠ [] →
  take k (removelast comps) `prefix_of` comps ∧ take k (removelast comps) ≠ comps.
Proof.
  intros Hne. pose proof (app_removelast_last EmptyString Hne) as Hlast.
  split.
  - rewrite Hlast at 2. apply prefix_app_r, prefix_take.
  - intros Heq. apply (f_equal length) in Heq. rewrite length_take in Heq.
    rewrite Hlast in Heq at 2. rewrite length_app in Heq. simpl in Heq. lia.
Qed.

Lemma staging_more (directory : path) (finished more : list member) files :
  staging directory finished files → staging directory (finished ++ more) files.
Proof.
  intros [Hdirs Hfiles]. split.
  - intros q Hq. destruct (Hdirs q Hq) as [->|(j & m & Hj & Hpre)]; [by left|].
    right. exists j, m. split; [by apply lookup_app_l_Some|done].
  - intros q content Hq. destruct (Hfiles q content Hq) as (j & m & Hj & Hm).
    exists j, m. split; [by apply lookup_app_l_Some|done].
Qed.

(** Extraction of a member with a clean name that clashes with none of the
    members before it. *)
Lemma extract_clean archive (directory : path) (finished rest : list member)
    (m : member) w :
  clash_free archive →
  archive = finished ++ m :: rest →
  clean_name m.1 →
  fault_at w = None →
  staging directory finished (fs w) →
  ∃ files',
    extract archive m.1 directory w = (Ok (), World files' None)
    ∧ files' !! (directory ++ split_slash m.1) = Some (File m.2)
    ∧ staging directory (finished ++ [m]) files'.
Proof.
  intros Hfree Harchive Hclean Hfault [Hdirs Hfiles].
  set (comps := split_slash m.1) in *.
  assert (comps ≠ []) as Hcomps by apply split_slash_nonempty.
  assert (archive !! length finished = Some m) as Hi
    by (subst archive; by apply list_lookup_middle).
  assert (∀ (j : nat) (m' : member), finished !! j = Some m' →
            ¬ split_slash m'.1 `prefix_of` comps
            ∧ ¬ comps `prefix_of` split_slash m'.1) as Hclash.
  { intros j m' Hj.
    assert (archive !! j = Some m') as Hj'
      by (subst archive; by apply lookup_app_l_Some).
    assert (j ≠ length finished) as Hne
      by (apply lookup_lt_Some in Hj; lia).
    split; [by apply (Hfree j (length finished) m' m)|].
    by apply (Hfree (length finished) j m m'). }
  destruct (make_dirs_ok (removelast comps) directory (fs w))
    as (files1 & Hmake & Hmade & Hrest).
  { intros k content Hk Hlookup.
    destruct (Hfiles _ _ Hlookup) as (j & m' & Hj & Hm').
    destruct (Hclash j m' Hj) as [Hpre _]. apply Hpre. rewrite <- Hm'.
    by apply take_removelast_proper. }
  assert (∀ k, directory ++ comps ≠ directory ++ take k (removelast comps))
    as Htarget.
  { intros k Heq%app_inv_head. symmetry in Heq.
    by apply (take_removelast_proper comps k). }
  assert (files1 !! (directory ++ comps) ≠ Some Dir) as Hnodir.
  { rewrite Hrest by (intros k _; apply Htarget). intros Hlookup.
    destruct (Hdirs _ Hlookup) as [Hnil|(j & m' & Hj & Hpre & _)]; [done|].
    by destruct (Hclash j m' Hj) as [_ []]. }
  exists (<[directory ++ comps := File m.2]> files1).
  split; [|split; [by apply lookup_insert_eq|]].
  - unfold extract.
    rewrite (getinfo_unique archive (length finished) m)
      by (by apply clash_free_distinct || done).
    unfold mbind, io_bind. rewrite io_step_no_fault by done.
    unfold get_fs. fold comps. rewrite filter_clean by done.
    rewrite clean_name_no_trailing_slash by done. rewrite Hmake.
    destruct (files1 !! (directory ++ comps)) as [[content|]|];
      [|done|];
      (rewrite bool_decide_eq_false_2 by done);
      unfold put_fs; by rewrite Hfault.
  - destruct (staging_more directory finished [m] (fs w) (conj Hdirs Hfiles))
      as [Hdirs' Hfiles'].
    split.
    + intros q Hq.
      assert (q ≠ comps) as Hne by (intros ->; by rewrite lookup_insert_eq in Hq).
      rewrite lookup_insert_ne in Hq by (by intros ?%app_inv_head).
      destruct (decide (q `prefix_of` comps)) as [Hpre|Hnotpre].
      * right. exists (length finished), m.
        split; [by apply list_lookup_middle|done].
      * rewrite Hrest in Hq; [by apply Hdirs'|].
        intros k _ Heq%app_inv_head. apply Hnotpre. rewrite Heq.
        by apply take_removelast_proper.
    + intros q content Hq.
      destruct (decide (q = comps)) as [->|Hne].
      { exists (length finished), m. split; [by apply list_lookup_middle|done]. }
      rewrite lookup_insert_ne in Hq by (by intros ?%app_inv_head).
      assert (files1 !! (directory ++ q) = fs w !! (directory ++ q)) as Hsame.
      { apply Hrest. intros k Hk Heq%app_inv_head.
        rewrite Heq, Hmade in Hq by done. discriminate. }
      rewrite Hsame in Hq. by apply (Hfiles' q content).
Qed.

Lemma zip_write_clean (directory : path) (filename : string) content w :
  clean_name filename →
  fault_at w = None →
  fs w !! (directory ++ split_slash filename) = Some (File content) →
  zip_write (os_path_join directory filename) w
  = (Ok (join_slash (directory ++ split_slash filename), content), w).
Proof.
  intros Hclean Hfault Hlookup. rewrite clean_name_resolves by done.
  unfold zip_write, mbind, io_bind. rewrite io_step_no_fault by done.
  unfold get_fs.
  destruct (directory ++ split_slash filename) as [|c file] eqn:Hfile.
  - apply app_eq_nil in Hfile as [_ Hsplit].
    by apply split_slash_nonempty in Hsplit.
  - by rewrite Hlookup.
Qed.

Lemma io_bind_Ok {A B} (m : io A) (k : A → io B) w (a : A) w' :
  m w = (Ok a, w') → (m ≫= k) w = k a w'.
Proof. intros Hm. unfold mbind, io_bind. by rewrite Hm. Qed.

(** The loop over an archive of clean names without clashes, without
    faults: every kept member is staged and written under the name of its
    staged file. *)
Lemma archive_loop_clean archive excluded (directory : path) :
  clash_free archive →
  Forall (λ m : member, clean_name m.1) archive →
  ∀ rest finished new_archive w,
    archive = finished ++ rest →
    fault_at w = None →
    staging directory finished (fs w) →
    ∃ files',
      archive_loop archive excluded directory (length finished)
        (namelist rest) new_archive w
      = (Ok (new_archive
             ++ map (staged directory) (kept_from excluded (length finished) rest)),
         World files' None).
Proof.
  intros Hfree Hclean.
  induction rest as [|m rest IH];
    intros finished new_archive w Harchive Hfault Hstaging.
  - exists (fs w). simpl. rewrite app_nil_r.
    unfold mret, io_ret. destruct w as [files fault]. simpl in *. by subst.
  - assert (archive = (finished ++ [m]) ++ rest) as Harchive'
      by (by rewrite <- app_assoc).
    assert (S (length finished) = length (finished ++ [m])) as Hindex
      by (rewrite length_app; simpl; lia).
    assert (clean_name m.1) as Hm.
    { rewrite Forall_forall in Hclean. apply Hclean. subst archive.
      apply elem_of_app. right. by left. }
    cbn [namelist map archive_loop kept_from].
    fold (namelist rest).
    case_bool_decide as Hexcluded.
    + rewrite Hindex. apply IH; [done|done|by apply staging_more].
    + destruct (extract_clean archive directory finished rest m w)
        as (files1 & Hextract & Hfile & Hstaging1); [done..|].
      rewrite (io_bind_Ok _ _ _ _ _ Hextract).
      rewrite (io_bind_Ok _ _ _ _ _
                 (zip_write_clean directory m.1 m.2 (World files1 None)
                    Hm eq_refl Hfile)).
      destruct (IH (finished ++ [m])
                  (new_archive ++ [(join_slash (directory ++ split_slash m.1), m.2)])
                  (World files1 None)) as (files' & Hrun); [done..|].
      exists files'. rewrite Hindex, Hrun. by rewrite <- app_assoc.
Qed.

Lemma named_temporary_file_run (name : path) w :
  fault_at w = None →
  named_temporary_file name w
  = (Ok (), World (<[name := File (Raw [])]> (fs w)) None).
Proof.
  intros Hfault. unfold named_temporary_file.
  rewrite (io_bind_Ok _ _ _ _ _ (io_step_no_fault w Hfault)).
  unfold mbind, io_bind, get_fs, put_fs. by rewrite Hfault.
Qed.

Lemma temporary_directory_run (name : path) w :
  fault_at w = None →
  temporary_directory name w = (Ok (), World (<[name := Dir]> (fs w)) None).
Proof.
  intros Hfault. unfold temporary_directory.
  rewrite (io_bind_Ok _ _ _ _ _ (io_step_no_fault w Hfault)).
  unfold mbind, io_bind, get_fs, put_fs. by rewrite Hfault.
Qed.

Lemma cleanup_run (directory : path) w :
  fault_at w = None →
  cleanup directory w
  = (Ok (), World (filter (λ kv, ¬ directory `prefix_of` kv.1) (fs w)) None).
Proof.
  intros Hfault. unfold cleanup.
  rewrite (io_bind_Ok _ _ _ _ _ (io_step_no_fault w Hfault)).
  unfold mbind, io_bind, get_fs, put_fs. by rewrite Hfault.
Qed.

Lemma zip_close_run (file : path) (entries : list member) w :
  fault_at w = None →
  zip_close file entries w
  = (Ok (), World (<[file := File (Zip entries)]> (fs w)) None).
Proof.
  intros Hfault. unfold zip_close. rewrite io_step_no_fault by done.
  unfold put_fs. by rewrite Hfault.
Qed.

(** The staging area is empty when the loop starts. *)
Lemma staging_start (tmpfile tmpdir : path) (files : gmap path node) :
  unused tmpdir files →
  ¬ tmpdir `prefix_of` tmpfile →
  staging tmpdir [] (<[tmpdir := Dir]> (<[tmpfile := File (Raw [])]> files)).
Proof.
  intros Hunused Htmpfile.
  assert (∀ q, q ≠ [] →
            (<[tmpdir := Dir]> (<[tmpfile := File (Raw [])]> files))
              !! (tmpdir ++ q) = None) as Hnone.
  { intros q Hq. rewrite lookup_insert_ne.
    2:{ intros Heq. apply (f_equal length) in Heq.
        rewrite length_app in Heq. destruct q; [done|]. simpl in Heq. lia. }
    rewrite lookup_insert_ne by (intros ->; apply Htmpfile; by apply prefix_app_r).
    apply Hunused. by apply prefix_app_r. }
  split.
  - intros q Hq. left. destruct q as [|c q]; [done|].
    by rewrite Hnone in Hq.
  - intros q content Hq. destruct q as [|c q].
    + rewrite app_nil_r, lookup_insert_eq in Hq. discriminate.
    + by rewrite Hnone in Hq.
Qed.

(** The rewrite of an archive of clean names without clashes, without
    faults, with temporary names that were not in use. *)
Lemma create_archive_clean tmpfile tmpdir archive excluded w :
  clash_free archive →
  Forall (λ m : member, clean_name m.1) archive →
  fault_at w = None →
  unused tmpdir (fs w) →
  ¬ tmpdir `prefix_of` tmpfile →
  create_archive tmpfile tmpdir archive excluded w
  = (Ok tmpfile,
     World (<[tmpfile := File (Zip (map (staged tmpdir) (kept excluded archive)))]>
              (fs w)) None).
Proof.
  intros Hfree Hclean Hfault Hunused Htmpfile.
  set (w2 := World (<[tmpdir := Dir]> (<[tmpfile := File (Raw [])]> (fs w))) None).
  destruct (archive_loop_clean archive excluded tmpdir Hfree Hclean archive [] [] w2)
    as (files' & Hloop); [done|done|by apply staging_start|].
  simpl in Hloop.
  assert (create_archive tmpfile tmpdir archive excluded w
          = (Ok tmpfile,
             World (<[tmpfile := File (Zip (map (staged tmpdir)
                                              (kept excluded archive)))]>
                      (filter (λ kv, ¬ tmpdir `prefix_of` kv.1) files')) None))
    as Hrun.
  { unfold create_archive.
    rewrite (io_bind_Ok _ _ _ _ _ (named_temporary_file_run tmpfile w Hfault)).
    rewrite (io_bind_Ok _ _ _ _ _
               (temporary_directory_run tmpdir (World _ None) eq_refl)).
    cbn [fs]. fold w2.
    rewrite (io_bind_Ok _ _ _ _ _ Hloop).
    rewrite (io_bind_Ok _ _ _ _ _ (cleanup_run tmpdir (World _ None) eq_refl)).
    by rewrite (io_bind_Ok _ _ _ _ _
                  (zip_close_run tmpfile _ (World _ None) eq_refl)). }
  rewrite Hrun. f_equal. f_equal. apply map_eq. intros p.
  destruct (decide (p = tmpfile)) as [->|Hp]; [by rewrite !lookup_insert_eq|].
  destruct (decide (tmpdir `prefix_of` p)) as [Hbelow|Hnotbelow].
  - rewrite !lookup_insert_ne by done.
    rewrite Hunused by done. apply map_lookup_filter_None. right.
    intros x _. simpl. tauto.
  - pose proof (stages_create_archive tmpfile tmpdir archive excluded w p
                  (conj Hp Hnotbelow)) as Hsame.
    rewrite Hrun in Hsame. cbn [snd fs] in Hsame. rewrite Hsame.
    by rewrite lookup_insert_ne.
Qed.

Lemma length_append (a b : string) :
  String.length (a +:+ b) = String.length a + String.length b.
Proof. induction a as [|c a IH]; simpl; [done|]. by rewrite IH. Qed.

Lemma join_slash_cons (comp comp' : string) (comps : list string) :
  join_slash (comp :: comp' :: comps)
  = (comp +:+ "/" +:+ join_slash (comp' :: comps))%string.
Proof. reflexivity. Qed.

Lemma join_split (s : string) : join_slash (split_slash s) = s.
Proof.
  unfold join_slash. induction s as [|c s IH]; [done|].
  rewrite split_slash_cons.
  pose proof (split_slash_nonempty s) as Hne.
  destruct (Ascii.eqb_spec c slash) as [->|_].
  - destruct (split_slash s) as [|comp comps]; [done|].
    change (String.concat "/" (EmptyString :: comp :: comps))
      with (String slash (String.concat "/" (comp :: comps))).
    by rewrite IH.
  - destruct (split_slash s) as [|comp [|comp' comps]]; [done| |].
    + simpl in *. by rewrite IH.
    + change (String.concat "/" (String c comp :: comp' :: comps))
        with (String c (String.concat "/" (comp :: comp' :: comps))).
      by rewrite IH.
Qed.

Lemma join_slash_app_length (comps1 comps2 : list string) :
  comps1 ≠ [] → comps2 ≠ [] →
  String.length (join_slash (comps1 ++ comps2))
  = String.length (join_slash comps1) + 1 + String.length (join_slash comps2).
Proof.
  intros H1 H2. induction comps1 as [|comp [|comp' comps1] IH]; [done| |].
  - destruct comps2 as [|comp2 comps2]; [done|].
    change ([comp] ++ comp2 :: comps2) with (comp :: comp2 :: comps2).
    rewrite join_slash_cons, !length_append.
    change (join_slash [comp]) with comp. simpl. lia.
  - change ((comp :: comp' :: comps1) ++ comps2)
      with (comp :: comp' :: (comps1 ++ comps2)).
    rewrite !join_slash_cons, !length_append.
    change (comp' :: comps1 ++ comps2) with ((comp' :: comps1) ++ comps2).
    rewrite IH by done. simpl. lia.
Qed.

(** The name of a staged file is never the name of the member. *)
Lemma staged_name_differs (tmpdir : path) (name : string) :
  tmpdir ≠ [] → join_slash (tmpdir ++ split_slash name) ≠ name.
Proof.
  intros Hdir Heq. apply (f_equal String.length) in Heq.
  rewrite join_slash_app_length in Heq by (done || apply split_slash_nonempty).
  rewrite join_split in Heq. lia.
Qed.

(** What the new archive is like: as many entries go as positions are
    excluded, the others stay in order with their content, and each is
    named after its staged file, not after the member. *)
Lemma create_archive_entries tmpfile tmpdir archive excluded w :
  clash_free archive →
  Forall (λ m : member, clean_name m.1) archive →
  fault_at w = None →
  unused tmpdir (fs w) →
  ¬ tmpdir `prefix_of` tmpfile →
  tmpdir ≠ [] →
  NoDup excluded →
  (∀ i, i ∈ excluded → (0 ≤ i < Z.of_nat (length archive))%Z) →
  ∃ entries,
    create_archive tmpfile tmpdir archive excluded w
    = (Ok tmpfile, World (<[tmpfile := File (Zip entries)]> (fs w)) None)
    ∧ length entries + length excluded = length archive
    ∧ map snd entries = map snd (kept excluded archive)
    ∧ kept excluded archive `sublist_of` archive
    ∧ Forall2 (λ (entry m : member), entry.1 ≠ m.1) entries
        (kept excluded archive).
Proof.
  intros Hfree Hclean Hfault Hunused Htmpfile Hdir Hexcluded Hrange.
  exists (map (staged tmpdir) (kept excluded archive)).
  split; [by apply create_archive_clean|].
  split; [by rewrite length_map, kept_length|].
  split; [rewrite map_map; by apply map_ext|].
  split; [apply kept_from_sublist|].
  apply Forall2_fmap_l, Forall_Forall2_diag, Forall_forall.
  intros m _. by apply staged_name_differs.
Qed.

End RewriteFacts.

Section RewriteClaims.
Implicit Types (archive : list member) (excluded : list Z) (w : world).







(** C3, at an archive of two pages with the second one excluded: the new
    archive has one entry, with the bytes of the first page, and its name
    is that of the staged file, [tmp/tmpe5f6g7h8/001.jpg], where the
    original entry is named [001.jpg]. *)
Theorem create_archive_names_entries_after_staged_files :
  (create_archive picked_file picked_dir two_pages [1%Z] (on_disk None)).1
  = Ok picked_file
  ∧ fs (create_archive picked_file picked_dir two_pages [1%Z] (on_disk None)).2
      !! picked_file
    = Some (File (Zip [("tmp/tmpe5f6g7h8/001.jpg"%string, Raw [Byte.x41])]))
  ∧ kept [1%Z] two_pages = [("001.jpg"%string, Raw [Byte.x41])]
  ∧ "tmp/tmpe5f6g7h8/001.jpg"%string ≠ "001.jpg"%string.
Proof.
  split; [|split; [|split]]; [vm_compute; reflexivity ..|discriminate].
Qed.

End RewriteClaims.

(** ** When the analysis raises *)

Section AnalysisOutcomes.
Context {N : Type} `{Number N}.
Implicit Types (sizes : list (size N)) (sz average : size N) (t : N).

Lemma non_pages_loop_zero (average_resolution : N) t (index : nat) sz rest indexes :
  is_zero average_resolution = true →
  non_pages_loop average_resolution t index (sz :: rest) indexes
  = Raise ZeroDivisionError.
Proof. intros Hz. simpl. by rewrite (truediv_zero _ _ Hz). Qed.

Lemma detect_non_pages_zero_area sizes t :
  sizes ≠ [] →
  is_zero (area (average_of sizes)) = true →
  detect_non_pages sizes t = Raise ZeroDivisionError.
Proof.
  intros Hne Hz. unfold detect_non_pages.
  rewrite calculate_average_resolution_nonempty by done.
  destruct sizes as [|sz sizes]; [done|].
  cbn [mbind result_bind]. by apply non_pages_loop_zero.
Qed.

Lemma detect_double_spreads_Ok sizes t sizes' :
  detect_double_spreads sizes t = Ok sizes' →
  sizes ≠ []
  ∧ is_zero (average_of sizes).1 = false
  ∧ is_zero (average_of sizes).2 = false
  ∧ sizes' = normalized (average_of sizes) t sizes.
Proof.
  intros Hrun. destruct sizes as [|sz sizes]; [done|].
  destruct (is_zero (average_of (sz :: sizes)).1) eqn:Hz1.
  { by rewrite detect_double_spreads_zero_average in Hrun by (done || by left). }
  destruct (is_zero (average_of (sz :: sizes)).2) eqn:Hz2.
  { by rewrite detect_double_spreads_zero_average in Hrun by (done || by right). }
  rewrite detect_double_spreads_normalized in Hrun by done.
  injection Hrun as <-. done.
Qed.

Lemma detect_non_pages_Ok sizes t non_pages :
  detect_non_pages sizes t = Ok non_pages →
  sizes ≠ []
  ∧ is_zero (area (average_of sizes)) = false
  ∧ non_pages = flagged (average_of sizes) t sizes.
Proof.
  intros Hrun. destruct sizes as [|sz sizes]; [done|].
  destruct (is_zero (area (average_of (sz :: sizes)))) eqn:Hz.
  { by rewrite detect_non_pages_zero_area in Hrun. }
  rewrite detect_non_pages_flagged in Hrun by done.
  injection Hrun as <-. done.
Qed.

Lemma normalized_length average t sizes :
  length (normalized average t sizes) = length sizes.
Proof. unfold normalized. apply length_map. Qed.

Lemma analyse_Ok sizes t sizes' non_pages :
  analyse sizes t = Ok (sizes', non_pages) →
  sizes ≠ []
  ∧ sizes' = normalized (average_of sizes) t sizes
  ∧ non_pages = flagged (average_of sizes') t sizes'.
Proof.
  unfold analyse. intros Hrun.
  destruct (detect_double_spreads sizes t) as [spreads|] eqn:Hspreads; [|done].
  cbn [mbind result_bind] in Hrun.
  destruct (detect_non_pages spreads t) as [found|] eqn:Hfound; [|done].
  injection Hrun as <- <-.
  apply detect_double_spreads_Ok in Hspreads as (Hne & _ & _ & ->).
  by apply detect_non_pages_Ok in Hfound as (_ & _ & ->).
Qed.

Lemma analyse_in_range sizes t sizes' non_pages :
  analyse sizes t = Ok (sizes', non_pages) →
  Forall (λ x, x.1 < length sizes ∧ below t x.2 = true) non_pages.
Proof.
  intros (_ & -> & ->)%analyse_Ok. apply Forall_forall. intros [i r] Hin.
  apply elem_of_flagged in Hin as (sz & Hi & _ & Hbelow).
  apply lookup_lt_Some in Hi. rewrite normalized_length in Hi. done.
Qed.

(** [detect_double_spreads] raises exactly when the list is empty or the
    average is zero in a coordinate, and then it is [ZeroDivisionError]. *)
Theorem detect_double_spreads_raises_iff sizes t (e : exn) :
  detect_double_spreads sizes t = Raise e
  ↔ e = ZeroDivisionError
    ∧ (sizes = []
       ∨ is_zero (average_of sizes).1 = true
       ∨ is_zero (average_of sizes).2 = true).
Proof.
  destruct sizes as [|sz sizes].
  - split; [|by intros [-> _]].
    intros Hraise. injection Hraise as <-. by split; [|left].
  - destruct (is_zero (average_of (sz :: sizes)).1) eqn:Hz1.
    { rewrite detect_double_spreads_zero_average by (done || by left).
      split; [intros [= <-]; by split; [|right; left]|by intros [-> _]]. }
    destruct (is_zero (average_of (sz :: sizes)).2) eqn:Hz2.
    { rewrite detect_double_spreads_zero_average by (done || by right).
      split; [intros [= <-]; by split; [|right; right]|by intros [-> _]]. }
    rewrite detect_double_spreads_normalized by done.
    split; [done|]. by intros [_ [?|[?|?]]].
Qed.

(** [detect_non_pages] raises exactly when the list is empty or the product
    of the average width and height is zero, and then it is
    [ZeroDivisionError]; otherwise it returns the flagged pairs. *)
Theorem detect_non_pages_raises_iff sizes t (e : exn) :
  (detect_non_pages sizes t = Raise e
   ↔ e = ZeroDivisionError
     ∧ (sizes = [] ∨ is_zero (area (average_of sizes)) = true))
  ∧ (∀ non_pages,
       detect_non_pages sizes t = Ok non_pages →
       non_pages = flagged (average_of sizes) t sizes).
Proof.
  destruct sizes as [|sz sizes].
  - split; [|done]. split; [|by intros [-> _]].
    intros Hraise. injection Hraise as <-. by split; [|left].
  - destruct (is_zero (area (average_of (sz :: sizes)))) eqn:Hz.
    + rewrite detect_non_pages_zero_area by done. split; [|done].
      split; [intros [= <-]; by split; [|right]|by intros [-> _]].
    + rewrite detect_non_pages_flagged by done. split.
      * split; [done|]. by intros [_ [?|?]].
      * by intros non_pages [= <-].
Qed.

End AnalysisOutcomes.

(** ** More on the analysis in exact arithmetic *)

Section ExactMore.
Implicit Types (sizes : list (size Q)) (sz average : size Q) (t r : Q).
Local Open Scope Q_scope.

Lemma Qsum_between (lo hi : Q) (xs : list Q) :
  Forall (λ x, lo <= x ∧ x <= hi) xs →
  inject_Z (Z.of_nat (length xs)) * lo <= Qsum xs
  ∧ Qsum xs <= inject_Z (Z.of_nat (length xs)) * hi.
Proof.
  induction 1 as [|x xs [Hlo Hhi] _ [IHlo IHhi]].
  - change (inject_Z (Z.of_nat (length (@nil Q)))) with 0.
    change (Qsum []) with 0. split; lra.
  - cbn [length Qsum fold_right]. fold (Qsum xs).
    rewrite Nat2Z.inj_succ, <- Z.add_1_r, inject_Z_plus.
    change (inject_Z 1) with 1. split; lra.
Qed.

Lemma mean_between (lo hi : Q) (xs : list Q) :
  xs ≠ [] →
  Forall (λ x, lo <= x ∧ x <= hi) xs →
  lo <= mean xs ∧ mean xs <= hi.
Proof.
  intros Hne Hall. rewrite mean_exact.
  destruct (Qsum_between lo hi xs Hall) as [Hlo Hhi].
  assert (0 < inject_Z (Z.of_nat (length xs))) as Hn.
  { change 0 with (inject_Z 0). rewrite <- Zlt_Qlt.
    destruct xs; [done|]. simpl. lia. }
  split.
  - apply Qle_shift_div_l; [done|]. by rewrite Qmult_comm.
  - apply Qle_shift_div_r; [done|]. by rewrite Qmult_comm.
Qed.

(** The average lies between the smallest and the largest width, and
    between the smallest and the largest height. *)
Theorem average_between_extremes sizes (lo_w hi_w lo_h hi_h : Q) :
  sizes ≠ [] →
  Forall (λ sz, (lo_w <= sz.1 ∧ sz.1 <= hi_w) ∧ (lo_h <= sz.2 ∧ sz.2 <= hi_h))
    sizes →
  ∃ average,
    calculate_average_resolution sizes = Ok average
    ∧ (lo_w <= average.1 ∧ average.1 <= hi_w)
    ∧ (lo_h <= average.2 ∧ average.2 <= hi_h).
Proof.
  intros Hne Hall. exists (average_of sizes).
  split; [by apply calculate_average_resolution_nonempty|].
  split; apply mean_between; try (by destruct sizes);
    apply Forall_fmap; (eapply Forall_impl; [exact Hall|]); by intros sz [? ?].
Qed.

(** A run: pages between 200 and 1000 wide, 300 and 1500 high. *)
Lemma average_between_extremes_witness :
  ∃ average,
    calculate_average_resolution (Exact.int_sizes thumbnail_scenario) = Ok average
    ∧ (200 <= average.1 ∧ average.1 <= 1000)
    ∧ (300 <= average.2 ∧ average.2 <= 1500).
Proof.
  apply (average_between_extremes (Exact.int_sizes thumbnail_scenario)
           200 1000 300 1500).
  - discriminate.
  - repeat constructor; discriminate.
Defined.

Lemma Qsum_permutation (xs ys : list Q) : xs ≡ₚ ys → Qsum xs == Qsum ys.
Proof.
  induction 1 as [|x xs ys _ IH|x y xs|xs ys zs _ IH1 _ IH2]; simpl.
  - reflexivity.
  - by rewrite IH.
  - ring.
  - by rewrite IH1.
Qed.

Lemma mean_permutation (xs ys : list Q) : xs ≡ₚ ys → mean xs = mean ys.
Proof.
  intros Hperm. unfold mean. simpl. apply Qred_complete.
  rewrite !py_sum_exact, (Qsum_permutation xs ys Hperm).
  by rewrite (Permutation_length Hperm).
Qed.

(** The average does not depend on the order of the entries. *)
Theorem average_of_reordered sizes sizes' :
  sizes ≡ₚ sizes' →
  calculate_average_resolution sizes = calculate_average_resolution sizes'.
Proof.
  intros Hperm. destruct sizes as [|sz sizes].
  - by apply Permutation_nil_l in Hperm as ->.
  - assert (sizes' ≠ []) as Hne'.
    { intros ->. by apply Permutation_nil_r in Hperm. }
    rewrite !calculate_average_resolution_nonempty by done.
    unfold average_of. f_equal. f_equal; apply mean_permutation;
      by apply fmap_Permutation.
Qed.

(** A run: the spread first instead of last. *)
Lemma average_of_reordered_witness :
  calculate_average_resolution (Exact.int_sizes spread_scenario)
  = calculate_average_resolution
      (Exact.int_sizes ((2000, 1500)%Z :: replicate 9 (1000, 1500)%Z)).
Proof.
  apply average_of_reordered. unfold spread_scenario, Exact.int_sizes.
  rewrite fmap_app. simpl. symmetry. apply Permutation_cons_append.
Defined.

Lemma quotient_between (w a lo hi : Q) :
  0 < a → (lo < w / a ∧ w / a < hi) ↔ (lo * a < w ∧ w < hi * a).
Proof.
  intros Ha.
  assert (w / a * a == w) as Hback by (field; lra).
  split; intros [Hlo Hhi]; split.
  - rewrite <- Hback. by apply Qmult_lt_r.
  - rewrite <- Hback. by apply Qmult_lt_r.
  - by apply Qlt_shift_div_l.
  - by apply Qlt_shift_div_r.
Qed.

Lemma Qabs_one_minus (x t : Q) : Qabs (1 - x) < t ↔ 1 - t < x ∧ x < 1 + t.
Proof. rewrite Qabs_Qlt_condition. split; intros [? ?]; split; lra. Qed.

Lemma Qsum_le (xs ys : list Q) :
  Forall2 Qle xs ys → Qsum xs <= Qsum ys.
Proof.
  induction 1 as [|x y xs ys Hxy _ IH]; simpl; [lra|].
  fold (Qsum xs). fold (Qsum ys). lra.
Qed.

Lemma mean_le (xs ys : list Q) :
  Forall2 Qle xs ys → mean xs <= mean ys.
Proof.
  intros Hle. rewrite !mean_exact.
  rewrite <- (Forall2_length _ _ _ Hle).
  destruct xs as [|x xs].
  - apply Forall2_nil_inv_l in Hle as ->. lra.
  - apply Qmult_le_compat_r; [by apply Qsum_le|].
    apply Qinv_le_0_compat. change 0 with (inject_Z 0).
    rewrite <- Zle_Qle. lia.
Qed.

(** Rewriting the spreads keeps the number of entries and the average
    height, and for widths that are not negative it does not raise the
    average width. *)
Theorem normalization_lowers_average_width sizes t sizes' :
  Forall (λ sz, 0 <= sz.1) sizes →
  detect_double_spreads sizes t = Ok sizes' →
  length sizes' = length sizes
  ∧ calculate_average_resolution sizes = Ok (average_of sizes)
  ∧ calculate_average_resolution sizes' = Ok (average_of sizes')
  ∧ (average_of sizes').2 = (average_of sizes).2
  ∧ (average_of sizes').1 <= (average_of sizes).1.
Proof.
  intros Hwidths (Hne & _ & _ & ->)%detect_double_spreads_Ok.
  assert (normalized (average_of sizes) t sizes ≠ []) as Hne'
    by (unfold normalized; by destruct sizes).
  split; [apply normalized_length|].
  split; [by apply calculate_average_resolution_nonempty|].
  split; [by apply calculate_average_resolution_nonempty|].
  split.
  - unfold average_of. cbn [snd]. by rewrite normalized_heights.
  - unfold average_of at 1 3. cbn [fst]. apply mean_le.
    unfold normalized. rewrite map_map. apply Forall2_fmap.
    apply Forall_Forall2_diag. eapply Forall_impl; [exact Hwidths|].
    intros sz Hsz. cbn beta in *.
    destruct (is_spread (average_of sizes) t sz); [|lra].
    unfold halved. cbn [fst]. simpl. rewrite Qred_correct.
    unfold Qdiv. change (/ inject_Z 2) with (1 # 2). lra.
Qed.

(** A run: the spread scenario. *)
Lemma normalization_lowers_average_width_witness :
  (average_of (Exact.int_sizes
                 (replicate 9 (1000, 1500)%Z ++ [(1000, 1500)%Z]))).1
  <= (average_of (Exact.int_sizes spread_scenario)).1.
Proof.
  apply (normalization_lowers_average_width
           (Exact.int_sizes spread_scenario) (1 # 5)
           (Exact.int_sizes (replicate 9 (1000, 1500)%Z ++ [(1000, 1500)%Z]))).
  - repeat constructor; discriminate.
  - reflexivity.
Defined.

Lemma normalized_unchanged average t sizes :
  Forall (λ sz, is_spread average t sz = false) sizes →
  normalized average t sizes = sizes.
Proof.
  induction 1 as [|sz sizes Hsz _ IH]; [done|].
  unfold normalized in *. simpl. by rewrite Hsz, IH.
Qed.

Lemma flagged_nothing average t sizes :
  Forall (λ sz, below t (ratio average sz) = false) sizes →
  flagged average t sizes = [].
Proof.
  intros Hall. apply elem_of_nil_inv. intros [i r] Hin.
  apply elem_of_flagged in Hin as (sz & Hi & -> & Hbelow).
  rewrite Forall_forall in Hall.
  rewrite (Hall sz) in Hbelow; [done|]. by apply list_elem_of_lookup_2 in Hi.
Qed.

Lemma analyse_uniform sizes (w h t : Q) :
  sizes ≠ [] →
  0 < w →
  0 < h →
  Forall (λ sz, sz.1 == w ∧ sz.2 == h) sizes →
  0 <= t →
  t <= 1 # 2 →
  analyse sizes t = Ok (sizes, []).
Proof.
  intros Hne Hw Hh Hall Ht0 Ht.
  assert ((average_of sizes).1 == w ∧ (average_of sizes).2 == h) as [Haw Hah].
  { split; apply Qle_antisym;
      apply (mean_between w w) || apply (mean_between h h);
      try (by destruct sizes);
      apply Forall_fmap; (eapply Forall_impl; [exact Hall|]);
      intros sz [H1 H2]; simpl; split; lra. }
  assert (is_zero (average_of sizes).1 = false) as Hz1
    by (apply is_zero_false; lra).
  assert (is_zero (average_of sizes).2 = false) as Hz2
    by (apply is_zero_false; lra).
  assert (normalized (average_of sizes) t sizes = sizes) as Hsame.
  { apply normalized_unchanged. eapply Forall_impl; [exact Hall|].
    intros sz [H1 H2]. simpl. apply not_true_iff_false.
    intros [[Hlo _]%Qabs_one_minus _]%is_spread_true.
    assert (sz.1 / 2 / (average_of sizes).1 == 1 # 2) as Hhalf.
    { rewrite H1, Haw. field. lra. }
    rewrite Hhalf in Hlo. lra. }
  unfold analyse. rewrite detect_double_spreads_normalized, Hsame by done.
  cbn [mbind result_bind].
  assert (area (average_of sizes) == w * h) as Harea.
  { unfold area. simpl. by rewrite Qred_correct, Haw, Hah. }
  rewrite detect_non_pages_flagged; [|done|].
  2:{ apply is_zero_false. rewrite Harea. intros Hz.
      pose proof (Qmult_lt_0_compat _ _ Hw Hh). lra. }
  cbn [mbind result_bind]. rewrite flagged_nothing; [done|].
  eapply Forall_impl; [exact Hall|]. intros sz [H1 H2]. simpl.
  apply not_true_iff_false. intros Hbelow%below_true.
  assert (ratio (average_of sizes) sz == 1) as Hone.
  { rewrite ratio_exact, H1, H2, Haw, Hah. field. lra. }
  rewrite Hone in Hbelow. lra.
Qed.

(** An archive whose pages all have the same size comes out of the analysis
    as it went in, with nothing flagged, at any threshold from 0 to 1/2. *)
Theorem uniform_pages_are_left_alone sizes (w h t : Q) :
  sizes ≠ [] →
  0 < w →
  0 < h →
  Forall (λ sz, sz.1 == w ∧ sz.2 == h) sizes →
  0 <= t →
  t <= 1 # 2 →
  analyse sizes t = Ok (sizes, []).
Proof. apply analyse_uniform. Qed.

(** A run: ten pages of (1000, 1500) at threshold 0.2. *)
Lemma uniform_pages_are_left_alone_witness :
  analyse (Exact.int_sizes (replicate 10 (1000, 1500)%Z)) (1 # 5)
  = Ok (Exact.int_sizes (replicate 10 (1000, 1500)%Z), []).
Proof.
  apply (uniform_pages_are_left_alone
           (Exact.int_sizes (replicate 10 (1000, 1500)%Z)) 1000 1500 (1 # 5)).
  - discriminate.
  - reflexivity.
  - reflexivity.
  - repeat constructor.
  - discriminate.
  - discriminate.
Defined.

Lemma mean_of_two (x y : Q) : mean [x; y] == (x + y) * (1 # 2).
Proof.
  rewrite mean_exact. cbn [Qsum fold_right length Z.of_nat]. unfold Qdiv.
  change (/ inject_Z (Z.of_nat 2)) with (1 # 2). ring.
Qed.

Lemma not_a_spread_by_height average t sz :
  0 < average.2 →
  (t * average.2 <= average.2 - sz.2 ∨ t * average.2 <= sz.2 - average.2) →
  is_spread average t sz = false.
Proof.
  intros Hh Hfar. apply not_true_iff_false.
  intros [_ Hv]%is_spread_true.
  apply Qabs_one_minus in Hv. apply quotient_between in Hv; [|done].
  destruct Hv as [Hlo Hhi]. destruct Hfar; lra.
Qed.

Lemma below_by_areas average t sz :
  0 < area average →
  t * area average < area average - area sz →
  below t (ratio average sz) = true.
Proof.
  intros Hpos Hfar. apply below_true.
  assert (ratio average sz * area average == area sz) as Hback.
  { unfold ratio. cbn [nquot Exact.number]. rewrite Qred_correct. field. lra. }
  apply Qnot_le_lt. intros Hle.
  assert ((1 - ratio average sz - t) * area average <= 0) as Hprod.
  { rewrite <- (Qmult_0_l (area average)). apply Qmult_le_compat_r; lra. }
  lra.
Qed.

(** All the pages of an archive can be flagged.  Of a portrait page (a, b)
    and a landscape page (b, a) neither is a spread and each has the ratio
    4ab/(a+b)² to the average, so that both are flagged at a threshold
    below ((a-b)/(a+b))²: pages of 3000 by 1000 and 1000 by 3000 at the
    default threshold, for one. *)
Theorem portrait_and_landscape_are_both_flagged (a b t : Q) :
  0 < a →
  0 < b →
  0 <= t →
  t * ((a + b) * (a + b)) < (a - b) * (a - b) →
  analyse [(a, b); (b, a)] t
  = Ok ([(a, b); (b, a)],
        [(0%nat, ratio (average_of [(a, b); (b, a)]) (a, b));
         (1%nat, ratio (average_of [(a, b); (b, a)]) (b, a))])
  ∧ ratio (average_of [(a, b); (b, a)]) (a, b)
    == 4 * a * b / ((a + b) * (a + b))
  ∧ ratio (average_of [(a, b); (b, a)]) (b, a)
    == 4 * a * b / ((a + b) * (a + b)).
Proof.
  intros Ha Hb Ht Hfar.
  set (sizes := [(a, b); (b, a)]).
  assert ((average_of sizes).1 == (a + b) * (1 # 2)) as Haw.
  { unfold average_of, sizes. cbn [fst snd map]. by rewrite mean_of_two. }
  assert ((average_of sizes).2 == (a + b) * (1 # 2)) as Hah.
  { unfold average_of, sizes. cbn [fst snd map]. rewrite mean_of_two. ring. }
  assert (area (average_of sizes) == (a + b) * (a + b) * (1 # 4)) as Harea.
  { unfold area. cbn [nmul Exact.number]. rewrite Qred_correct, Haw, Hah. ring. }
  assert (0 < (a + b) * (a + b)) as Hsquare by (apply Qmult_lt_0_compat; lra).
  assert (is_zero (average_of sizes).1 = false) as Hz1
    by (apply is_zero_false; lra).
  assert (is_zero (average_of sizes).2 = false) as Hz2
    by (apply is_zero_false; lra).
  assert (t * (a + b) <= Qabs (a - b)) as Hwide.
  { apply Qabs_case; intros Hsign; apply Qnot_lt_le; intros Hnarrow.
    - assert ((a - b) * (a - b) <= t * (a + b) * (a + b)) as Hbound.
      { apply Qle_trans with (t * (a + b) * (a - b)).
        - apply Qmult_le_compat_r; lra.
        - apply Qmult_le_l; lra. }
      lra.
    - assert ((b - a) * (b - a) <= t * (a + b) * (a + b)) as Hbound.
      { apply Qle_trans with (t * (a + b) * (b - a)).
        - apply Qmult_le_compat_r; lra.
        - apply Qmult_le_l; lra. }
      lra. }
  assert (normalized (average_of sizes) t sizes = sizes) as Hsame.
  { apply normalized_unchanged. unfold sizes.
    constructor; [|constructor; [|constructor]];
      (apply not_a_spread_by_height; [fold sizes; lra|]);
      fold sizes; cbn [fst snd]; rewrite Hah;
      revert Hwide; apply Qabs_case; intros; lra. }
  assert (is_zero (area (average_of sizes)) = false) as Hza
    by (apply is_zero_false; lra).
  assert (below t (ratio (average_of sizes) (a, b)) = true) as Hportrait.
  { apply below_by_areas; [lra|]. rewrite Harea. unfold area.
    cbn [fst snd nmul Exact.number]. rewrite Qred_correct. lra. }
  assert (below t (ratio (average_of sizes) (b, a)) = true) as Hlandscape.
  { apply below_by_areas; [lra|]. rewrite Harea. unfold area.
    cbn [fst snd nmul Exact.number]. rewrite Qred_correct. lra. }
  repeat split.
  - unfold analyse.
    rewrite detect_double_spreads_normalized, Hsame by done.
    cbn [mbind result_bind]. rewrite detect_non_pages_flagged by done.
    cbn [mbind result_bind]. unfold flagged. subst sizes.
    cbn [imap List.filter fst snd compose]. by rewrite Hportrait, Hlandscape.
  - rewrite ratio_exact, Haw, Hah. cbn [fst snd]. field. lra.
  - rewrite ratio_exact, Haw, Hah. cbn [fst snd]. field. lra.
Qed.

(** A run: pages of 3000 by 1000 and 1000 by 3000 at threshold 0.2. *)
Lemma portrait_and_landscape_are_both_flagged_witness :
  analyse [(3000, 1000); (1000, 3000)] (1 # 5)
  = Ok ([(3000, 1000); (1000, 3000)], [(0%nat, 3 # 4); (1%nat, 3 # 4)]).
Proof.
  apply (portrait_and_landscape_are_both_flagged 3000 1000 (1 # 5));
    reflexivity || discriminate.
Defined.

End ExactMore.

(** ** Reading the sizes *)

Section SizesFacts.
Variable image_size : blob → option (Z * Z).
Implicit Types (archive rest : list member) (w : world).

Lemma io_step_outcome w :
  (∃ w', io_step w = (Ok (), w') ∧ fs w' = fs w)
  ∨ (∃ w', io_step w = (Raise OSError, w') ∧ fs w' = fs w).
Proof.
  unfold io_step. destruct (fault_at w) as [[|k]|]; [right|left|left]; eauto.
Qed.

Lemma getinfo_member archive (m : member) :
  m ∈ archive → ∃ m', getinfo archive m.1 = Ok m'.
Proof.
  intros Hin. unfold getinfo.
  destruct (find _ (rev archive)) as [m'|] eqn:Hfind; [eauto|].
  pose proof (find_none _ _ Hfind m) as Hnone. cbn beta in Hnone.
  rewrite bool_decide_eq_false in Hnone. destruct Hnone; [|done].
  rewrite <- in_rev. by apply list_elem_of_In.
Qed.

Lemma open_image_fs archive (filename : string) w :
  fs (open_image image_size archive filename w).2 = fs w.
Proof.
  unfold open_image. destruct (getinfo archive filename) as [m|e]; [|done].
  unfold mbind, io_bind.
  destruct (io_step_outcome w) as [(w1 & -> & H1)|(w1 & -> & H1)]; [|done].
  destruct (io_step_outcome w1) as [(w2 & -> & H2)|(w2 & -> & H2)];
    [|by rewrite <- H1].
  destruct (image_size m.2); simpl; by rewrite <- H1.
Qed.

Lemma open_image_Ok archive (m : member) w dims w' :
  m ∈ archive →
  open_image image_size archive m.1 w = (Ok dims, w') →
  image_size (opened archive m) = Some dims.
Proof.
  intros [m' Hm']%getinfo_member. unfold open_image, opened. rewrite Hm'.
  unfold mbind, io_bind.
  destruct (io_step_outcome w) as [(w1 & -> & H1)|(w1 & -> & H1)]; [|done].
  destruct (io_step_outcome w1) as [(w2 & -> & H2)|(w2 & -> & H2)]; [|done].
  destruct (image_size m'.2); [|done]. by intros [= -> _].
Qed.

Lemma open_image_run archive (m : member) w :
  m ∈ archive →
  fault_at w = None →
  open_image image_size archive m.1 w
  = (match image_size (opened archive m) with
     | Some dims => Ok dims
     | None => Raise OSError
     end, w).
Proof.
  intros [m' Hm']%getinfo_member Hfault. unfold open_image, opened.
  rewrite Hm'. rewrite !(io_bind_Ok _ _ _ _ _ (io_step_no_fault w Hfault)).
  by destruct (image_size m'.2).
Qed.

Lemma sizes_loop_fs archive (names : list string) :
  ∀ sizes w, fs (sizes_loop image_size archive names sizes w).2 = fs w.
Proof.
  induction names as [|filename names IH]; intros sizes w; [done|].
  simpl. unfold mbind, io_bind.
  pose proof (open_image_fs archive filename w) as Hopen.
  destruct (open_image image_size archive filename w) as [[dims|e] w1];
    [|done].
  by rewrite IH.
Qed.

Lemma sizes_loop_Ok archive rest :
  (∀ m, m ∈ rest → m ∈ archive) →
  ∀ sizes w out w',
    sizes_loop image_size archive (namelist rest) sizes w = (Ok out, w') →
    ∃ dims,
      out = sizes ++ dims
      ∧ map (λ m, image_size (opened archive m)) rest = map Some dims.
Proof.
  induction rest as [|m rest IH]; intros Hsub sizes w out w' Hrun.
  - injection Hrun as <- <-. exists []. by rewrite app_nil_r.
  - simpl in Hrun. unfold mbind, io_bind in Hrun.
    destruct (open_image image_size archive m.1 w) as [[dims|e] w1] eqn:Hopen;
      [|done].
    apply open_image_Ok in Hopen; [|apply Hsub; left].
    apply IH in Hrun as (more & -> & Hmore);
      [|intros m0 Hm0; apply Hsub; by right].
    exists (dims :: more). rewrite <- app_assoc. split; [done|].
    simpl. by rewrite Hopen, Hmore.
Qed.

Lemma sizes_loop_run archive rest :
  (∀ m, m ∈ rest → m ∈ archive) →
  ∀ sizes w,
    fault_at w = None →
    sizes_loop image_size archive (namelist rest) sizes w
    = (match mapM (λ m, image_size (opened archive m)) rest with
       | Some dims => Ok (sizes ++ dims)
       | None => Raise OSError
       end, w).
Proof.
  induction rest as [|m rest IH]; intros Hsub sizes w Hfault.
  - simpl. by rewrite app_nil_r.
  - cbn [namelist map sizes_loop mapM]. unfold mbind at 1, io_bind.
    rewrite open_image_run by (done || apply Hsub; left).
    destruct (image_size (opened archive m)) as [dims|]; [|done].
    rewrite IH by (done || intros m0 Hm0; apply Hsub; by right).
    cbn [mbind option_bind].
    destruct (mapM _ rest) as [more|]; [|done].
    simpl. by rewrite <- app_assoc.
Qed.

Lemma get_sizes_length archive w dims w' :
  get_sizes image_size archive w = (Ok dims, w') →
  length dims = length archive.
Proof.
  intros Hrun. apply sizes_loop_Ok in Hrun as (dims' & -> & Hdims); [|done].
  apply (f_equal length) in Hdims. by rewrite !length_map in Hdims.
Qed.

(** [get_sizes] only reads: whether it returns or raises, and whatever
    fails under it, the files are as they were.  The list that it returns
    has one size for every entry of the archive, in order, each the size of
    the image found under the name of the entry. *)
Theorem get_sizes_reads_only archive w :
  fs (get_sizes image_size archive w).2 = fs w
  ∧ ∀ dims w',
      get_sizes image_size archive w = (Ok dims, w') →
      identified image_size archive = map Some dims
      ∧ length dims = length archive.
Proof.
  split; [apply sizes_loop_fs|].
  intros dims w' Hrun.
  apply sizes_loop_Ok in Hrun as (dims' & -> & Hdims); [|done].
  split; [done|].
  apply (f_equal length) in Hdims. rewrite !length_map in Hdims. done.
Qed.

(** Entries that share a name are measured alike: each is read by its
    name, and the name leads to the last entry that bears it. *)
Theorem entries_of_one_name_are_read_alike archive w dims w'
    (i j : nat) (m m' : member) :
  get_sizes image_size archive w = (Ok dims, w') →
  archive !! i = Some m →
  archive !! j = Some m' →
  m.1 = m'.1 →
  ∃ last,
    getinfo archive m.1 = Ok last
    ∧ dims !! i = image_size last.2
    ∧ dims !! j = image_size last.2.
Proof.
  intros Hrun Hi Hj Hname.
  apply sizes_loop_Ok in Hrun as (dims' & -> & Hdims); [|done].
  destruct (getinfo_member archive m) as [last Hlast];
    [by eapply list_elem_of_lookup_2|].
  exists last. split; [done|].
  assert (∀ (k : nat) (x : member),
            archive !! k = Some x → x.1 = m.1 →
            dims' !! k = image_size last.2) as Hread.
  { intros k x Hk Hx.
    apply (f_equal (λ l, l !! k)) in Hdims.
    rewrite !list_lookup_fmap, Hk in Hdims. simpl in Hdims.
    unfold opened in Hdims. rewrite Hx, Hlast in Hdims.
    destruct (dims' !! k) as [d|]; simpl in Hdims; [|done].
    injection Hdims as Hd. by rewrite Hd. }
  split; [by apply (Hread i m)|by apply (Hread j m')].
Qed.

(** Without a fault [get_sizes] returns exactly when Pillow identifies an
    image under every name; one entry that is no image makes it raise, and
    no sizes are returned at all. *)
Theorem get_sizes_needs_every_image archive w :
  fault_at w = None →
  get_sizes image_size archive w
  = (match mapM (λ m, image_size (opened archive m)) archive with
     | Some dims => Ok dims
     | None => Raise OSError
     end, w)
  ∧ (mapM (λ m, image_size (opened archive m)) archive = None
     ↔ None ∈ identified image_size archive).
Proof.
  intros Hfault. split.
  - unfold get_sizes. by rewrite sizes_loop_run.
  - unfold identified. rewrite mapM_None, list_elem_of_fmap.
    rewrite Exists_exists. split.
    + intros (m & Hin & Hnone). eauto.
    + intros (m & Hnone & Hin). eauto.
Qed.

End SizesFacts.

(** A run: a page and a thumbnail under one name are both measured as the
    thumbnail. *)
Lemma entries_of_one_name_are_read_alike_witness :
  ∃ last,
    getinfo same_name_twice "001.jpg" = Ok last
    ∧ [(200, 300); (200, 300)]%Z !! 0%nat = header_size last.2
    ∧ [(200, 300); (200, 300)]%Z !! 1%nat = header_size last.2.
Proof.
  apply (entries_of_one_name_are_read_alike header_size same_name_twice
           (World ∅ None) [(200, 300); (200, 300)]%Z (World ∅ None)
           0 1 ("001.jpg"%string, Raw [Byte.x64; Byte.x96])
           ("001.jpg"%string, Raw [Byte.x14; Byte.x1e]));
    reflexivity.
Defined.

(** A run: the scans of the toy format, with a text file among them. *)
Lemma get_sizes_needs_every_image_witness :
  get_sizes header_size (scans ++ [("notes.txt"%string, Raw [])])
    (scans_on_disk None)
  = (Raise OSError, scans_on_disk None).
Proof.
  apply (get_sizes_needs_every_image header_size
           (scans ++ [("notes.txt"%string, Raw [])]) (scans_on_disk None)).
  reflexivity.
Defined.

(** ** The command *)

Section CommandFacts.
Context {N : Type} `{Number N}.
Variable image_size : blob → option (Z * Z).
Implicit Types (s : session N) (file : path) (files : list path).
Implicit Types (held : option path).

Lemma cli_bind_Done {A B} (m : cli N A) (k : A → cli N B) s (a : A) s' :
  m s = (Done a, s') → (m ≫= k) s = k a s'.
Proof. intros Hm. unfold mbind, cli_bind. by rewrite Hm. Qed.

Lemma cli_bind_Failed {A B} (m : cli N A) (k : A → cli N B) s f s' :
  m s = (Failed f, s') → (m ≫= k) s = (Failed f, s').
Proof. intros Hm. unfold mbind, cli_bind. by rewrite Hm. Qed.

(** *** The steps of the loop body *)

Lemma zip_open_quiet file s :
  printed (zip_open file s).2 = printed s
  ∧ fs (disk (zip_open file s).2) = fs (disk s)
  ∧ ∀ archive,
      (zip_open file s).1 = Done archive →
      fs (disk s) !! file = Some (File (Zip archive)).
Proof.
  destruct s as [[files fault] lines].
  unfold zip_open, mbind, cli_bind, lift_io, io_step, get_fs. simpl.
  destruct fault as [[|k]|]; simpl; [done| |];
    (destruct (files !! file) as [[[bytes|entries]|]|]; simpl;
     repeat split; try done; by intros archive [= ->]).
Qed.

Lemma get_sizes_quiet (archive : list member) s :
  printed (lift_io (get_sizes image_size archive) s).2 = printed s
  ∧ fs (disk (lift_io (get_sizes image_size archive) s).2) = fs (disk s)
  ∧ ∀ dims,
      (lift_io (get_sizes image_size archive) s).1 = Done dims →
      identified image_size archive = map Some dims
      ∧ length dims = length archive.
Proof.
  unfold lift_io.
  pose proof (sizes_loop_fs image_size archive (namelist archive) [] (disk s))
    as Hfs.
  fold (get_sizes image_size archive) in Hfs.
  destruct (get_sizes image_size archive (disk s)) as [[dims|e] w] eqn:Hrun;
    simpl in *; (split; [done|]; split; [done|]); [|done].
  intros dims' [= <-]. split; [|by eapply get_sizes_length].
  by apply sizes_loop_Ok in Hrun as (dims' & -> & Hdims).
Qed.

Lemma lift_io_printed {A} (m : io A) s : printed (lift_io m s).2 = printed s.
Proof. unfold lift_io. by destruct (m (disk s)) as [[a|e] w]. Qed.

Lemma report_loop_run filename file_count target_diff non_pages :
  ∀ s,
    report_loop filename file_count target_diff non_pages s
    = (Done (),
       Session (disk s)
         (printed s
          ++ map (λ x, Report filename (x.1 + 1) file_count x.2 target_diff)
               non_pages)).
Proof.
  induction non_pages as [|[index diff] non_pages IH]; intros s.
  - simpl. rewrite app_nil_r. by destruct s.
  - simpl. unfold mbind, cli_bind, echo. rewrite IH. simpl.
    by rewrite <- app_assoc.
Qed.

Lemma rewrite_archive_printed tmpfile tmpdir held file
    (archive : list member) (non_pages : list (nat * N)) s :
  printed (rewrite_archive tmpfile tmpdir held file archive non_pages s).2
  = printed s.
Proof.
  unfold rewrite_archive, mbind, cli_bind, lift_io.
  destruct (create_archive _ _ _ _ (disk s)) as [[new_file|e] w1]; [|done].
  cbn [disk printed].
  destruct (rebind held w1) as [[[]|e] w2]; [|done]. cbn [disk printed].
  by destruct (copyfile new_file file w2) as [[[]|e] w3].
Qed.

Lemma create_archive_returns_tmpfile (tmpfile tmpdir : path)
    (archive : list member) (excluded : list Z) (w w' : world) new_file :
  create_archive tmpfile tmpdir archive excluded w = (Ok new_file, w') →
  new_file = tmpfile.
Proof.
  unfold create_archive, mbind, io_bind.
  destruct (named_temporary_file tmpfile w) as [[[]|e] w1]; [|done].
  destruct (temporary_directory tmpdir w1) as [[[]|e] w2]; [|done].
  destruct (archive_loop _ _ _ _ _ _ w2) as [[new_archive|e] w3]; [|done].
  destruct (cleanup tmpdir w3) as [[[]|e] w4]; [|done].
  destruct (zip_close tmpfile new_archive w4) as [[[]|e] w5]; [|done].
  by intros [= <- _].
Qed.

(** For the first archive that is rewritten, lines 99 and 100 are
    [replace_archive]. *)
Lemma first_rewrite_is_replace_archive tmpfile tmpdir file
    (archive : list member) (non_pages : list (nat * N)) s :
  rewrite_archive tmpfile tmpdir None file archive non_pages s
  = match lift_io (replace_archive tmpfile tmpdir file archive non_pages) s with
    | (Done _, s') => (Done (Some tmpfile), s')
    | (Failed f, s') => (Failed f, s')
    end.
Proof.
  unfold rewrite_archive, replace_archive, mbind, cli_bind, io_bind, lift_io.
  destruct (create_archive _ _ _ _ (disk s)) as [[new_file|e] w1] eqn:Hnew;
    [|done].
  apply create_archive_returns_tmpfile in Hnew as ->. cbn.
  by destruct (copyfile tmpfile file w1) as [[[]|e] w2].
Qed.

(** What the body of the loop does, in every state: it fails before a line
    is printed or a file changed; or it has read and analysed the archive
    at [file], printed the lines of the flagged pages and changed no file,
    and then, where pages are flagged in a real run, goes on to the
    rewrite. *)
Lemma process_cases dry_run threshold target_diff tmpfile tmpdir held file s :
  (∃ f s',
     process image_size dry_run threshold target_diff tmpfile tmpdir held file s
     = (Failed f, s')
     ∧ printed s' = printed s
     ∧ fs (disk s') = fs (disk s))
  ∨ (∃ archive non_pages s',
       analysed_as image_size threshold s file archive non_pages
       ∧ fs (disk s') = fs (disk s)
       ∧ printed s'
         = printed s ++ reports_of file (length archive) target_diff non_pages
       ∧ process image_size dry_run threshold target_diff tmpfile tmpdir held
           file s
         = if bool_decide (non_pages = []) || dry_run
           then (Done held, s')
           else rewrite_archive tmpfile tmpdir held file archive non_pages s').
Proof.
  unfold process.
  pose proof (zip_open_quiet file s) as (Hp1 & Hf1 & Ha1).
  destruct (zip_open file s) as [[archive|f] s1] eqn:Hopen; simpl in *.
  2:{ left. exists f, s1. by rewrite (cli_bind_Failed _ _ _ _ _ Hopen). }
  rewrite (cli_bind_Done _ _ _ _ _ Hopen).
  specialize (Ha1 archive eq_refl).
  pose proof (get_sizes_quiet archive s1) as (Hp2 & Hf2 & Hd2).
  destruct (lift_io (get_sizes image_size archive) s1) as [[dims|f] s2]
    eqn:Hsizes; simpl in *.
  2:{ left. exists f, s2. rewrite (cli_bind_Failed _ _ _ _ _ Hsizes).
      by rewrite Hp2, Hf2. }
  rewrite (cli_bind_Done _ _ _ _ _ Hsizes).
  destruct (Hd2 dims eq_refl) as [Hdims Hlength].
  destruct (analyse (sizes_of_ints dims) threshold)
    as [[sizes' non_pages]|e] eqn:Hrun; cbn [lift_result].
  2:{ left. exists (Builtin e), s2.
      rewrite (cli_bind_Failed _ _ s2 (Builtin e) s2) by done.
      by rewrite Hp2, Hf2. }
  rewrite (cli_bind_Done _ _ s2 (sizes', non_pages) s2) by done. cbn [snd].
  right. exists archive, non_pages.
  destruct non_pages as [|x non_pages].
  - exists s2. repeat split; try (by rewrite ?Hp2, ?Hf2, ?app_nil_r).
    by exists dims, sizes'.
  - eexists. split; [by exists dims, sizes'|].
    unfold mbind at 1, cli_bind. rewrite report_loop_run.
    unfold namelist. rewrite length_map. cbn [orb bool_decide].
    rewrite bool_decide_eq_false_2 by done. cbn [orb].
    split; [|split]; [| |by destruct dry_run].
    + cbn [disk]. by rewrite Hf2, Hf1.
    + cbn [printed]. rewrite Hp2, Hp1. done.
Qed.

Lemma process_dry threshold target_diff tmpfile tmpdir held file s :
  fs (disk (process image_size true threshold target_diff tmpfile tmpdir held
              file s).2)
  = fs (disk s)
  ∧ ∀ held',
      (process image_size true threshold target_diff tmpfile tmpdir held
         file s).1 = Done held' →
      held' = held.
Proof.
  destruct (process_cases true threshold target_diff tmpfile tmpdir held file s)
    as [(f & s' & -> & _ & Hfs)|(archive & non_pages & s' & _ & Hfs & _ & ->)].
  - done.
  - rewrite orb_true_r. split; [done|]. by intros held' [= <-].
Qed.


Lemma quiet_or_loud_process dry_run threshold target_diff tmpfile tmpdir held
    file :
  quiet_or_loud held
    (process image_size dry_run threshold target_diff tmpfile tmpdir held file).
Proof.
  intros s.
  destruct (process_cases dry_run threshold target_diff tmpfile tmpdir held
              file s)
    as [(f & s' & -> & Hlines & Hfs)
       |(archive & non_pages & s' & _ & Hfs & Hlines & ->)].
  - exists []. rewrite app_nil_r. by repeat split.
  - exists (reports_of file (length archive) target_diff non_pages). split.
    + destruct (bool_decide (non_pages = []) || dry_run); [done|].
      by rewrite rewrite_archive_printed.
    + intros ->%fmap_nil_inv. rewrite bool_decide_eq_true_2 by done.
      split; [done|]. by intros held' [= <-].
Qed.



Lemma process_preview threshold target_diff tmpfile tmpdir held file s :
  printed (process image_size true threshold target_diff tmpfile tmpdir held
             file s).2
  = printed (process image_size false threshold target_diff tmpfile tmpdir
               held file s).2
  ∧ ∀ f,
      (process image_size true threshold target_diff tmpfile tmpdir held
         file s).1 = Failed f →
      process image_size false threshold target_diff tmpfile tmpdir held file s
      = process image_size true threshold target_diff tmpfile tmpdir held
          file s.
Proof.
  unfold process, mbind, cli_bind.
  destruct (zip_open file s) as [[archive|f0] s1]; [|done].
  destruct (lift_io (get_sizes image_size archive) s1) as [[dims|f0] s2];
    [|done].
  destruct (lift_result (analyse (sizes_of_ints dims) threshold) s2)
    as [[[sizes' non_pages]|f0] s3]; [|done].
  cbn [snd]. destruct non_pages as [|x non_pages]; [done|].
  destruct (report_loop _ _ _ _ s3) as [[[]|f0] s4]; [|done].
  split; [|done]. by rewrite rewrite_archive_printed.
Qed.

(** *** Runs without a fault *)

Lemma zip_open_run file s :
  fault_at (disk s) = None →
  zip_open file s
  = (match fs (disk s) !! file with
     | None => Failed (Builtin FileNotFoundError)
     | Some Dir => Failed (Builtin IsADirectoryError)
     | Some (File (Raw _)) => Failed BadZipFile
     | Some (File (Zip entries)) => Done entries
     end, s).
Proof.
  destruct s as [[files fault] lines]. simpl. intros ->.
  unfold zip_open, mbind, cli_bind, lift_io. simpl.
  by destruct (files !! file) as [[[bytes|entries]|]|].
Qed.

Lemma get_sizes_run (archive : list member) s :
  fault_at (disk s) = None →
  lift_io (get_sizes image_size archive) s
  = (match mapM (λ m, image_size (opened archive m)) archive with
     | Some dims => Done dims
     | None => Failed (Builtin OSError)
     end, s).
Proof.
  intros Hfault. unfold lift_io, get_sizes.
  rewrite sizes_loop_run by done. simpl.
  destruct (mapM _ archive); by destruct s.
Qed.

Lemma copyfile_run (src dst : path) content (w : world) :
  fault_at w = None →
  fs w !! src = Some (File content) →
  copyfile src dst w = (Ok (), World (<[dst := File content]> (fs w)) None).
Proof.
  destruct w as [files fault]. simpl. intros -> Hsrc.
  unfold copyfile, read_file, mbind, io_bind, io_step, get_fs, put_fs. simpl.
  rewrite Hsrc. simpl. by rewrite insert_insert_eq.
Qed.

Lemma replace_archive_run tmpfile tmpdir file (archive : list member)
    (non_pages : list (nat * N)) (w : world) :
  clash_free archive →
  Forall (λ m : member, clean_name m.1) archive →
  fault_at w = None →
  unused tmpdir (fs w) →
  ¬ tmpdir `prefix_of` tmpfile →
  replace_archive tmpfile tmpdir file archive non_pages w
  = (Ok (),
     World (<[file := File (Zip (rewritten tmpdir archive non_pages))]>
              (<[tmpfile := File (Zip (rewritten tmpdir archive non_pages))]>
                 (fs w))) None).
Proof.
  intros Hfree Hclean Hfault Hunused Htmpfile. unfold replace_archive.
  rewrite (io_bind_Ok _ _ _ _ _
             (create_archive_clean tmpfile tmpdir archive _ w
                Hfree Hclean Hfault Hunused Htmpfile)).
  rewrite (copyfile_run _ _ (Zip (rewritten tmpdir archive non_pages)));
    [done|done|].
  simpl. by rewrite lookup_insert_eq.
Qed.

Lemma release_run (name : path) (w : world) :
  fault_at w = None →
  release_temporary_file name w = (Ok (), World (delete name (fs w)) None).
Proof.
  intros Hfault. unfold release_temporary_file.
  rewrite io_step_no_fault by done. unfold put_fs. by rewrite Hfault.
Qed.


Lemma process_run dry_run threshold target_diff tmpfile tmpdir held file
    archive dims sizes' non_pages s :
  fault_at (disk s) = None →
  fs (disk s) !! file = Some (File (Zip archive)) →
  mapM (λ m, image_size (opened archive m)) archive = Some dims →
  analyse (sizes_of_ints dims) threshold = Ok (sizes', non_pages) →
  process image_size dry_run threshold target_diff tmpfile tmpdir held file s
  = match non_pages with
    | [] => (Done held, s)
    | _ =>
        let s' := Session (disk s)
                    (printed s
                     ++ reports_of file (length archive) target_diff non_pages)
        in
        if dry_run then (Done held, s')
        else rewrite_archive tmpfile tmpdir held file archive non_pages s'
    end.
Proof.
  intros Hfault Hfile Hdims Hrun. unfold process.
  rewrite (cli_bind_Done _ _ s archive s)
    by (by rewrite zip_open_run, Hfile).
  rewrite (cli_bind_Done _ _ s dims s) by (by rewrite get_sizes_run, Hdims).
  rewrite Hrun. cbn [lift_result].
  rewrite (cli_bind_Done _ _ s (sizes', non_pages) s) by done. cbn [snd].
  destruct non_pages as [|x non_pages]; [done|].
  unfold mbind at 1, cli_bind. rewrite report_loop_run.
  unfold reports_of, namelist. rewrite length_map. by destruct dry_run.
Qed.


Section Picked.
Variable picks : nat → path * path.

Lemma main_loop_dry threshold target_diff files :
  ∀ position held s,
    fs (disk (main_loop image_size picks true threshold target_diff position
                held files s).2)
    = fs (disk s)
    ∧ ∀ held',
        (main_loop image_size picks true threshold target_diff position held
           files s).1 = Done held' →
        held' = held.
Proof.
  induction files as [|file files IH]; intros position held s.
  - split; [done|]. by intros held' [= <-].
  - cbn [main_loop]. unfold mbind, cli_bind.
    destruct (process_dry threshold target_diff (picks position).1
                (picks position).2 held file s) as [Hfs Hheld].
    destruct (process image_size true _ _ _ _ held file s) as [[h|f] s1];
      [|done].
    rewrite (Hheld h eq_refl). destruct (IH (S position) held s1) as [Hfs' Hheld'].
    split; [by rewrite Hfs'|done].
Qed.


Lemma quiet_or_loud_main_loop dry_run threshold target_diff files :
  ∀ position held,
    quiet_or_loud held
      (main_loop image_size picks dry_run threshold target_diff position held
         files).
Proof.
  induction files as [|file files IH]; intros position held s.
  - exists []. rewrite app_nil_r. repeat split. by intros held' [= <-].
  - cbn [main_loop]. unfold mbind, cli_bind.
    destruct (quiet_or_loud_process dry_run threshold target_diff
                (picks position).1 (picks position).2 held file s)
      as (lines & Hlines & Hquiet).
    destruct (process image_size dry_run _ _ _ _ held file s) as [[h|f] s1];
      [|eauto].
    destruct (IH (S position) h s1) as (more & Hmore & Hquiet').
    exists (lines ++ more). simpl in Hlines, Hquiet.
    rewrite Hmore, Hlines, app_assoc. split; [done|].
    intros [-> ->]%app_eq_nil.
    destruct (Hquiet eq_refl) as [Hfs Hheld].
    destruct (Hquiet' eq_refl) as [Hfs' Hheld'].
    rewrite (Hheld h eq_refl) in *. split; [by rewrite Hfs'|done].
Qed.

(** With [--dry-run] no file is created, changed or removed, whatever the
    archives hold and whether the run ends well or fails. *)
Theorem dry_run_leaves_files_alone threshold files s :
  fs (disk (main image_size picks true threshold files s).2) = fs (disk s).
Proof.
  unfold main, mbind, cli_bind.
  destruct (main_loop_dry threshold (nsub (of_int 1) threshold) files 0 None s)
    as [Hfs Hheld].
  destruct (main_loop image_size picks true _ _ 0 None files s)
    as [[held|f] s1]; [|done].
  by rewrite (Hheld held eq_refl).
Qed.


(** No file changes without a line printed: a run that leaves the output as
    it was, however it ends and whatever failed, leaves every file as it
    was. *)
Theorem no_line_no_change dry_run threshold files s :
  printed (main image_size picks dry_run threshold files s).2 = printed s →
  fs (disk (main image_size picks dry_run threshold files s).2) = fs (disk s).
Proof.
  unfold main, mbind, cli_bind.
  destruct (quiet_or_loud_main_loop dry_run threshold
              (nsub (of_int 1) threshold) files 0 None s)
    as (lines & Hlines & Hsame).
  destruct (main_loop image_size picks dry_run _ _ 0 None files s)
    as [[held|f] s1]; simpl in *.
  - rewrite lift_io_printed, Hlines. intros Hquiet.
    rewrite <- (app_nil_r (printed s)) in Hquiet at 2.
    apply app_inv_head in Hquiet as ->.
    destruct (Hsame eq_refl) as [Hfs Hheld].
    by rewrite (Hheld held eq_refl).
  - rewrite Hlines. intros Hquiet.
    rewrite <- (app_nil_r (printed s)) in Hquiet at 2.
    apply app_inv_head in Hquiet as ->.
    by destruct (Hsame eq_refl).
Qed.

(** For one archive a dry run prints the lines of the real run, and a
    failure of the dry run is the failure of the real run, in the same
    state: what fails the dry run fails before anything is rewritten. *)
Theorem dry_run_previews_the_run threshold file s :
  printed (main image_size picks true threshold [file] s).2
  = printed (main image_size picks false threshold [file] s).2
  ∧ ∀ f,
      (main image_size picks true threshold [file] s).1 = Failed f →
      main image_size picks false threshold [file] s
      = main image_size picks true threshold [file] s.
Proof.
  unfold main. cbn [main_loop].
  pose proof (process_preview threshold (nsub (of_int 1) threshold)
                (picks 0).1 (picks 0).2 None file s) as [Hlines Hfail].
  pose proof (process_dry threshold (nsub (of_int 1) threshold)
                (picks 0).1 (picks 0).2 None file s) as [_ Hheld].
  unfold mbind, cli_bind, mret, cli_ret.
  destruct (process image_size true _ _ _ _ None file s) as [[h0|f0] s1]
    eqn:Hdry;
    destruct (process image_size false _ _ _ _ None file s) as [[h1|f1] s2]
      eqn:Hreal;
    simpl in *.
  - rewrite (Hheld h0 eq_refl). split; [|done].
    by rewrite !lift_io_printed.
  - rewrite (Hheld h0 eq_refl). split; [|done].
    by rewrite lift_io_printed.
  - by specialize (Hfail f0 eq_refl).
  - specialize (Hfail f0 eq_refl). injection Hfail as -> ->.
    split; [done|]. by intros f _.
Qed.


(** The run on one archive with clean names in which pages are flagged,
    without a fault: a line is printed for each flagged page, the archive is
    replaced by one that holds the other entries, in order, each with its
    content and under the name of its staged file, and when [main] returns
    the temporary file is gone: no other file has changed. *)
Theorem main_rewrites_the_archive threshold file archive dims sizes'
    non_pages s :
  fault_at (disk s) = None →
  fs (disk s) !! file = Some (File (Zip archive)) →
  clash_free archive →
  Forall (λ m : member, clean_name m.1) archive →
  Forall2 (λ (m : member) d, image_size m.2 = Some d) archive dims →
  analyse (sizes_of_ints dims) threshold = Ok (sizes', non_pages) →
  non_pages ≠ [] →
  fs (disk s) !! (picks 0).1 = None →
  unused (picks 0).2 (fs (disk s)) →
  ¬ (picks 0).2 `prefix_of` (picks 0).1 →
  main image_size picks false threshold [file] s
  = (Done (),
     Session
       (World
          (<[file := File (Zip (rewritten (picks 0).2 archive non_pages))]>
             (fs (disk s))) None)
       (printed s
        ++ reports_of file (length archive) (nsub (of_int 1) threshold)
             non_pages)).
Proof.
  intros Hfault Hfile Hfree Hclean Hdims Hrun Hflagged Hfresh Hunused Htmpfile.
  unfold main. cbn [main_loop].
  assert (mapM (λ m, image_size (opened archive m)) archive = Some dims)
    as Hread.
  { apply mapM_Some. apply Forall2_same_length_lookup.
    split; [by eapply Forall2_length|].
    intros i m d Hm Hd. unfold opened.
    rewrite (getinfo_unique archive i m) by (by apply clash_free_distinct || done).
    exact (Forall2_lookup_lr _ _ _ _ _ _ Hdims Hm Hd). }
  assert ((picks 0).1 ≠ file) as Hne by (intros Heq; by rewrite Heq, Hfile in Hfresh).
  unfold mbind, cli_bind, mret, cli_ret.
  rewrite (process_run false threshold _ _ _ None file archive dims sizes'
             non_pages) by done.
  destruct non_pages as [|x non_pages]; [done|]. cbn zeta.
  rewrite (first_rewrite_is_replace_archive (picks 0).1 (picks 0).2 file
             archive (x :: non_pages)).
  unfold lift_io at 1.
  cbn [disk printed]. rewrite replace_archive_run by done.
  unfold lift_io, rebind. cbn [disk printed].
  rewrite release_run by done. cbn [fs].
  by rewrite delete_insert_ne, delete_insert_id.
Qed.

End Picked.

End CommandFacts.

Lemma scans_clash_free : clash_free scans.
Proof.
  intros [|[|[|[|i]]]] [|[|[|[|j]]]] m m' Hi Hj Hne [k Hk]; try done;
    injection Hi as <-; injection Hj as <-; discriminate.
Qed.

Lemma scans_clean : Forall (λ m : member, clean_name m.1) scans.
Proof. repeat constructor. Qed.

Lemma picked_dir_unused_scans (fault : option nat) :
  unused picked_dir (fs (scans_on_disk fault)).
Proof.
  intros p [k Hk]. unfold scans_on_disk. simpl.
  apply lookup_singleton_ne. intros <-. discriminate.
Qed.


(** A run: the scans at threshold 0.2; the thumbnail, at index 2 with a
    ratio of 1/16, is reported as page 3 of 4 and dropped, and no temporary
    file is left. *)
Lemma main_rewrites_the_archive_witness :
  main header_size picked false (1 # 5) [issue_file]
    (Session (scans_on_disk None) [])
  = (Done (),
     Session
       (World
          (<[issue_file :=
               File (Zip (rewritten picked_dir scans [(2%nat, 1 # 16)]))]>
             (fs (scans_on_disk None))) None)
       ([] ++ reports_of issue_file (length scans) (nsub (of_int 1) (1 # 5))
                [(2%nat, 1 # 16)])).
Proof.
  apply (main_rewrites_the_archive header_size picked (1 # 5) issue_file scans
           [(1000, 1500); (1000, 1500); (200, 300); (1000, 1500)]%Z
           (Exact.int_sizes
              [(1000, 1500); (1000, 1500); (200, 300); (1000, 1500)]%Z)
           [(2%nat, 1 # 16)] (Session (scans_on_disk None) [])).
  - reflexivity.
  - reflexivity.
  - apply scans_clash_free.
  - apply scans_clean.
  - repeat constructor.
  - reflexivity.
  - discriminate.
  - reflexivity.
  - apply picked_dir_unused_scans.
  - intros [k Hk]. discriminate.
Defined.

(** ** The command in exact arithmetic *)

Section CommandExact.
Variable image_size : blob → option (Z * Z).
Variable picks : nat → path * path.
Implicit Types (s : session Q) (files : list path).
Local Open Scope Q_scope.

Lemma uniform_archive_passes dry_run (t : Q) target_diff tmpfile tmpdir
    (held : option path) (file : path) archive (w h : Z) s :
  fault_at (disk s) = None →
  0 <= t →
  t <= 1 # 2 →
  fs (disk s) !! file = Some (File (Zip archive)) →
  archive ≠ [] →
  (0 < w)%Z →
  (0 < h)%Z →
  Forall (λ m, image_size (opened archive m) = Some (w, h)) archive →
  process image_size dry_run t target_diff tmpfile tmpdir held file s
  = (Done held, s).
Proof.
  intros Hfault Ht0 Ht Hfile Hne Hw Hh Hall.
  rewrite (process_run image_size dry_run t target_diff tmpfile tmpdir held
             file archive (map (λ _, (w, h)) archive)
             (sizes_of_ints (map (λ _, (w, h)) archive)) []); try done.
  - apply mapM_Some, Forall2_fmap_r, Forall_Forall2_diag. done.
  - apply (analyse_uniform _ (inject_Z w) (inject_Z h)); try done.
    + unfold sizes_of_ints. by destruct archive.
    + by rewrite <- (Zlt_Qlt 0).
    + by rewrite <- (Zlt_Qlt 0).
    + unfold sizes_of_ints. rewrite map_map. apply Forall_fmap, Forall_true.
      done.
Qed.

(** Archives whose images all have one size pass without a line printed
    and without a change, at any threshold from 0 to 1/2, with or without
    [--dry-run]. *)
Theorem uniform_archives_pass_silently dry_run (t : Q) files s :
  fault_at (disk s) = None →
  0 <= t →
  t <= 1 # 2 →
  Forall (λ file : path,
            ∃ archive (w h : Z),
              fs (disk s) !! file = Some (File (Zip archive))
              ∧ archive ≠ []
              ∧ (0 < w)%Z
              ∧ (0 < h)%Z
              ∧ Forall (λ m, image_size (opened archive m) = Some (w, h))
                  archive) files →
  main image_size picks dry_run t files s = (Done (), s).
Proof.
  intros Hfault Ht0 Ht Hfiles. unfold main.
  assert (∀ position,
            main_loop image_size picks dry_run t (nsub (of_int 1) t) position
              None files s = (Done None, s)) as Hloop.
  { induction Hfiles as [|file files Hfile _ IH]; intros position; [done|].
    destruct Hfile as (archive & w & h & Hfile & Hne & Hw & Hh & Hall).
    cbn [main_loop].
    rewrite (cli_bind_Done _ _ s None s); [apply IH|].
    by apply (uniform_archive_passes _ _ _ _ _ _ _ archive w h). }
  rewrite (cli_bind_Done _ _ s None s) by apply Hloop.
  by destruct s.
Qed.

End CommandExact.

(** A run: the archive of three pages, named twice. *)
Lemma uniform_archives_pass_silently_witness :
  main header_size picked false (1 # 5) [issue_file; issue_file]
    (Session pages_on_disk [])
  = (Done (), Session pages_on_disk []).
Proof.
  apply (uniform_archives_pass_silently header_size picked false (1 # 5)
           [issue_file; issue_file] (Session pages_on_disk [])).
  - reflexivity.
  - discriminate.
  - discriminate.
  - repeat constructor;
      (exists pages_only, 1000%Z, 1500%Z; repeat split; try done;
       repeat constructor).
Defined.

(** A run: the archive of three pages, with a fault at the second entry. *)
Lemma no_line_no_change_witness :
  fs (disk (main header_size picked false (1 # 5) [issue_file]
              (Session (World (fs pages_on_disk) (Some 4%nat)) [])).2)
  = fs pages_on_disk.
Proof.
  apply (no_line_no_change header_size picked false (1 # 5) [issue_file]
           (Session (World (fs pages_on_disk) (Some 4%nat)) [])).
  reflexivity.
Defined.

(** ** A fault during the copy *)

Section Faults.
Implicit Types (archive : list member) (excluded : list Z).

Lemma steady_ret {A} (a : A) : steady (mret a).
Proof.
  intros files. exists 0. split; [done|]. intros k _.
  unfold mret, io_ret. simpl. by rewrite Nat.sub_0_r.
Qed.

Lemma steady_raise {A} (e : exn) : steady (@raise A e).
Proof.
  intros files. exists 0. split; [done|]. intros k _.
  unfold raise. simpl. by rewrite Nat.sub_0_r.
Qed.

Lemma steady_get_fs : steady get_fs.
Proof.
  intros files. exists 0. split; [done|]. intros k _.
  unfold get_fs. simpl. by rewrite Nat.sub_0_r.
Qed.

Lemma steady_put_fs (m : gmap path node) : steady (put_fs m).
Proof.
  intros files. exists 0. split; [done|]. intros k _.
  unfold put_fs. simpl. by rewrite Nat.sub_0_r.
Qed.

Lemma steady_io_step : steady io_step.
Proof.
  intros files. exists 1. split; [done|]. intros [|k] Hk; [lia|].
  unfold io_step. simpl. by rewrite Nat.sub_0_r.
Qed.

Lemma steady_bind {A B} (m : io A) (k : A → io B) :
  steady m → (∀ a, steady (k a)) → steady (m ≫= k).
Proof.
  intros Hm Hk files. destruct (Hm files) as (n1 & Hnone & Hsome).
  unfold mbind, io_bind.
  destruct (m (World files None)) as [[a|e] [files1 fault1]] eqn:Hrun;
    simpl in Hnone, Hsome; subst fault1.
  - destruct (Hk a files1) as (n2 & Hnone2 & Hsome2).
    exists (n1 + n2). split; [done|]. intros j Hj.
    rewrite Hsome by lia. rewrite Hsome2 by lia.
    do 3 f_equal. lia.
  - exists n1. split; [done|]. intros j Hj. by rewrite Hsome.
Qed.

Lemma steady_extract archive (filename : string) (directory : path) :
  steady (extract archive filename directory).
Proof.
  unfold extract. destruct (getinfo archive filename) as [m|e];
    [|apply steady_raise].
  apply steady_bind; [apply steady_io_step|]. intros _.
  apply steady_bind; [apply steady_get_fs|]. intros files.
  set (comps := List.filter (λ c, negb (invalid_path_part c)) (split_slash m.1)).
  destruct (ends_with_slash m.1).
  - destruct (files !! (directory ++ comps)) as [[content|]|];
      [apply steady_raise| |];
      (destruct (make_dirs directory comps files) as [files'|e];
       [apply steady_put_fs|apply steady_raise]).
  - destruct (make_dirs directory (removelast comps) files) as [files'|e];
      [|apply steady_raise].
    destruct (files' !! (directory ++ comps)) as [[content|]|];
      [|apply steady_raise|];
      (destruct (bool_decide (comps = []));
       [apply steady_raise|apply steady_put_fs]).
Qed.

Lemma steady_zip_write (file : path) : steady (zip_write file).
Proof.
  unfold zip_write.
  apply steady_bind; [apply steady_io_step|]. intros _.
  apply steady_bind; [apply steady_get_fs|]. intros files.
  destruct file as [|c file]; [apply steady_raise|].
  destruct (files !! (c :: file)) as [[content|]|];
    apply steady_ret || apply steady_raise.
Qed.

Lemma steady_archive_loop archive excluded (directory : path)
    (names : list string) :
  ∀ index new_archive,
    steady (archive_loop archive excluded directory index names new_archive).
Proof.
  induction names as [|filename names IH]; intros index new_archive; simpl.
  - apply steady_ret.
  - destruct (bool_decide (Z.of_nat index ∈ excluded)); [apply IH|].
    apply steady_bind; [apply steady_extract|]. intros _.
    apply steady_bind; [apply steady_zip_write|]. intros entry. apply IH.
Qed.

Lemma steady_zip_close (file : path) (entries : list member) :
  steady (zip_close file entries).
Proof.
  intros files. exists 1. split; [done|]. intros [|k] Hk; [lia|].
  unfold zip_close, io_step. simpl. by rewrite Nat.sub_0_r.
Qed.

Lemma steady_create_archive (tmpfile tmpdir : path) archive excluded :
  steady (create_archive tmpfile tmpdir archive excluded).
Proof.
  unfold create_archive, named_temporary_file, temporary_directory, cleanup.
  repeat first
    [ apply steady_ret | apply steady_io_step | apply steady_get_fs
    | apply steady_put_fs | apply steady_archive_loop | apply steady_zip_close
    | apply steady_bind; [|intros ?] ].
Qed.

(** The replacement is not atomic.  For every archive of clean names there
    is a moment at which an I/O error leaves the file of the archive empty:
    the new archive is complete in its temporary file, the copy has opened
    the original for writing, and the error ends the run before the content
    arrives. *)
Theorem replacement_is_not_atomic {N} (tmpfile tmpdir file : path) archive
    (non_pages : list (nat * N)) (files : gmap path node) :
  clash_free archive →
  Forall (λ m : member, clean_name m.1) archive →
  unused tmpdir files →
  ¬ tmpdir `prefix_of` tmpfile →
  ∃ k : nat,
    replace_archive tmpfile tmpdir file archive non_pages
      (World files (Some k))
    = (Raise OSError,
       World (<[file := File (Raw [])]>
                (<[tmpfile := File (Zip (rewritten tmpdir archive non_pages))]>
                   files)) None).
Proof.
  intros Hfree Hclean Hunused Htmpfile.
  destruct (steady_create_archive tmpfile tmpdir archive
              (map (λ x, Z.of_nat x.1) non_pages) files) as (n & _ & Hsome).
  exists (n + 2). unfold replace_archive, mbind at 1, io_bind.
  rewrite Hsome by lia.
  rewrite (create_archive_clean tmpfile tmpdir archive _ (World files None))
    by done.
  replace (n + 2 - n) with 2 by lia.
  unfold copyfile, read_file, mbind, io_bind, io_step, get_fs, put_fs. simpl.
  by rewrite lookup_insert_eq.
Qed.

End Faults.

(** A run: the scans, their thumbnail flagged. *)
Lemma replacement_is_not_atomic_witness :
  ∃ k : nat,
    replace_archive picked_file picked_dir issue_file scans
      [(2%nat, 1 # 16)] (World (fs (scans_on_disk None)) (Some k))
    = (Raise OSError,
       World (<[issue_file := File (Raw [])]>
                (<[picked_file :=
                     File (Zip (rewritten picked_dir scans [(2%nat, 1 # 16)]))]>
                   (fs (scans_on_disk None)))) None).
Proof.
  apply (replacement_is_not_atomic picked_file picked_dir issue_file scans
           [(2%nat, 1 # 16)] (fs (scans_on_disk None))).
  - apply scans_clash_free.
  - apply scans_clean.
  - apply picked_dir_unused_scans.
  - intros [k Hk]. discriminate.
Defined.

(** A run: the scans rewritten without the thumbnail. *)
Lemma create_archive_entries_witness :
  ∃ entries,
    create_archive picked_file picked_dir scans [2%Z] (scans_on_disk None)
    = (Ok picked_file,
       World (<[picked_file := File (Zip entries)]> (fs (scans_on_disk None)))
         None)
    ∧ length entries + length [2%Z] = length scans
    ∧ map snd entries = map snd (kept [2%Z] scans)
    ∧ kept [2%Z] scans `sublist_of` scans
    ∧ Forall2 (λ (entry m : member), entry.1 ≠ m.1) entries
        (kept [2%Z] scans).
Proof.
  apply (create_archive_entries picked_file picked_dir scans [2%Z]
           (scans_on_disk None)).
  - apply scans_clash_free.
  - apply scans_clean.
  - reflexivity.
  - apply picked_dir_unused_scans.
  - intros [k Hk]. discriminate.
  - discriminate.
  - apply NoDup_singleton.
  - intros i ->%list_elem_of_singleton. simpl. lia.
Defined.

(** ** From the analysis to the rewrite *)

Section Dropped.
Context {N : Type} `{Number N}.

Lemma sorted_distinct (l : list nat) : StronglySorted lt l → NoDup l.
Proof.
  induction 1 as [|x l _ IH Hx]; constructor; [|done].
  intros Hin. rewrite Forall_forall in Hx. specialize (Hx x Hin). lia.
Qed.

(** What [main] hands from the analysis to [create_archive] fits the
    archive: the flagged indices are positions of the archive, in
    increasing order and without repetition.  So for an archive of clean
    names without clashes, without a fault and with temporary names that
    are not in use, [create_archive] returns with these indices, and the
    archive that it has written has exactly as many entries less as pages
    were flagged. *)
Theorem rewrite_drops_the_reported_pages (tmpfile tmpdir : path)
    (archive : list member) (sizes : list (size N)) (t : N) sizes' non_pages
    (w : world) :
  length sizes = length archive →
  analyse sizes t = Ok (sizes', non_pages) →
  clash_free archive →
  Forall (λ m : member, clean_name m.1) archive →
  fault_at w = None →
  unused tmpdir (fs w) →
  ¬ tmpdir `prefix_of` tmpfile →
  StronglySorted lt (map fst non_pages)
  ∧ Forall (λ x, x.1 < length archive) non_pages
  ∧ ∃ entries,
      create_archive tmpfile tmpdir archive
        (map (λ x, Z.of_nat x.1) non_pages) w
      = (Ok tmpfile, World (<[tmpfile := File (Zip entries)]> (fs w)) None)
      ∧ length entries + length non_pages = length archive.
Proof.
  intros Hlength Hrun Hfree Hclean Hfault Hunused Htmpfile.
  pose proof (analyse_in_range _ _ _ _ Hrun) as Hrange.
  apply analyse_Ok in Hrun as (_ & _ & Hflagged).
  assert (StronglySorted lt (map fst non_pages)) as Hsorted
    by (rewrite Hflagged; apply flagged_sorted).
  split; [done|]. split.
  { eapply Forall_impl; [exact Hrange|]. intros x [Hx _]. by rewrite <- Hlength. }
  exists (map (staged tmpdir)
            (kept (map (λ x, Z.of_nat x.1) non_pages) archive)).
  split; [by apply create_archive_clean|].
  rewrite length_map.
  rewrite <- (kept_length (map (λ x, Z.of_nat x.1) non_pages) archive).
  - by rewrite length_map.
  - rewrite <- (map_map fst Z.of_nat).
    apply (NoDup_fmap_2 Z.of_nat), sorted_distinct, Hsorted.
  - intros i (x & -> & Hx)%list_elem_of_fmap.
    rewrite Forall_forall in Hrange. destruct (Hrange x Hx) as [Hlt _]. lia.
Qed.

End Dropped.

(** A run: the scans at threshold 0.2. *)
Lemma rewrite_drops_the_reported_pages_witness :
  StronglySorted lt (map fst [(2%nat, 1 # 16)])
  ∧ Forall (λ x : nat * Q, x.1 < length scans) [(2%nat, 1 # 16)]
  ∧ ∃ entries,
      create_archive picked_file picked_dir scans
        (map (λ x : nat * Q, Z.of_nat x.1) [(2%nat, 1 # 16)])
        (scans_on_disk None)
      = (Ok picked_file,
         World (<[picked_file := File (Zip entries)]>
                  (fs (scans_on_disk None))) None)
      ∧ length entries + length [(2%nat, 1 # 16)] = length scans.
Proof.
  apply (rewrite_drops_the_reported_pages picked_file picked_dir scans
           (Exact.int_sizes
              [(1000, 1500); (1000, 1500); (200, 300); (1000, 1500)]%Z)
           (1 # 5)
           (Exact.int_sizes
              [(1000, 1500); (1000, 1500); (200, 300); (1000, 1500)]%Z)
           [(2%nat, 1 # 16)] (scans_on_disk None)).
  - reflexivity.
  - reflexivity.
  - apply scans_clash_free.
  - apply scans_clean.
  - reflexivity.
  - apply picked_dir_unused_scans.
  - intros [k Hk]. discriminate.
Defined.
